(** * GPS tracker backend: ingestion, fan-out, presence and read queries

    A shallow embedding of the Express / Socket.IO / Mongoose server of the
    repository (the revision with login, the [saved] flag and the 500-row
    admin timeline), with the properties of its specification stated and
    proved over it.

    Modelling conventions.
    - A JavaScript value that the handlers test for truthiness or convert
      with [toString] is a [jsval]; [undefined] (an absent property) is
      [None] of [option jsval].
    - Coordinates and accuracy are numbers when present, as the Mongoose
      schema declares them; the handlers never compute with them, so a
      number is carried as a [Z].
    - Dates are milliseconds since the epoch ([Z]); [new Date()] reads the
      clock of the world, which only moves between handler runs.
    - Handlers are written in a small state/error/output monad: the state is
      the [world] (Mongo connection state, the [locations] collection, the
      clock and the live sockets), errors are JavaScript exceptions, and the
      output is the sequence of observable effects (socket emissions and
      document inserts) in the order the handler performs them.
    - What the environment decides (does the write reach the database, does
      the read succeed) is an argument of the handler.
    - A handler runs to its end before the next input is taken: what happens
      while a handler awaits the store is not modelled, and the write that
      [send-location] starts without awaiting it is performed when that
      handler ends. *)

From stdpp Require Import gmap strings list sorting pretty.
From Stdlib Require Import ZArith Lia Ascii.

#[local] Set Warnings "-clear-no-such-hyp".

Local Open Scope Z_scope.

(** ** JavaScript values *)

Inductive jsval :=
| JNull
| JBool (b : bool)
| JNum (n : Z)
| JStr (s : string).

(** [!!v] of JavaScript: [undefined], [null], [false], [0] and the empty
    string are falsy. *)
Definition truthy (v : option jsval) : bool :=
  match v with
  | None | Some JNull => false
  | Some (JBool b) => b
  | Some (JNum n) => negb (n =? 0)
  | Some (JStr EmptyString) => false
  | Some (JStr _) => true
  end.

Inductive exn :=
| TypeError
| ValidationError
| MongoError.

(** [v.toString()]; on [undefined] and [null] it throws. *)
Definition toString (v : option jsval) : exn + string :=
  match v with
  | None | Some JNull => inl TypeError
  | Some (JBool true) => inr "true"%string
  | Some (JBool false) => inr "false"%string
  | Some (JNum n) => inr (pretty n)
  | Some (JStr s) => inr s
  end.

(** [x || d] on an optional number. *)
Definition or_default (x : option Z) (d : Z) : Z :=
  match x with
  | Some n => if n =? 0 then d else n
  | None => d
  end.

(** ** Documents, requests and events *)

(** A stored document of the [Location] model. *)
Record Location := mkLocation {
  userId : string;
  latitude : Z;
  longitude : Z;
  accuracy : Z;
  timestamp : Z
}.

(** The object handed to [new Location(...)], before casting and
    validation; [d_timestamp] is the schema default [Date.now], taken when
    the document is constructed. *)
Record draft := mkDraft {
  d_userId : option jsval;
  d_latitude : option Z;
  d_longitude : option Z;
  d_accuracy : option Z;
  d_timestamp : Z
}.

(** [req.body] of [POST /api/location] and the [loc] argument of
    [send-location]. *)
Record position_input := mkInput {
  in_userId : option jsval;
  in_latitude : option Z;
  in_longitude : option Z;
  in_accuracy : option Z
}.

(** The object emitted with [locationUpdate] and [adminLocationUpdate]. *)
Record payload := mkPayload {
  p_userId : option jsval;
  p_latitude : option Z;
  p_longitude : option Z;
  p_accuracy : option Z;
  p_timestamp : Z;
  p_type : option string
}.

Definition sid := nat.

(** One observable effect of a handler: [io.emit] ([room = None]) or
    [io.to(room).emit], with the sockets that receive it at that moment, or
    a document written to the collection. *)
Inductive effect :=
| Emit (room : option string) (event : string) (p : payload)
       (recipients : gset sid)
| Insert (doc : Location).

(** ** The world *)

Record socket := mkSocket {
  s_userId : option string;
  s_rooms : gset string
}.

Record world := mkWorld {
  readyState : Z;
  collection : list Location;
  now : Z;
  sockets : gmap sid socket
}.

Definition set_collection (c : list Location) (w : world) : world :=
  mkWorld (readyState w) c (now w) (sockets w).

Definition set_sockets (s : gmap sid socket) (w : world) : world :=
  mkWorld (readyState w) (collection w) (now w) s.

(** ** The handler monad *)

Definition M (A : Type) : Type := world → (exn + A) * world * list effect.

Definition ret {A} (a : A) : M A := λ w, (inr a, w, []).

Definition throw {A} (e : exn) : M A := λ w, (inl e, w, []).

Definition bind {A B} (m : M A) (k : A → M B) : M B := λ w,
  match m w with
  | (inl e, w1, out1) => (inl e, w1, out1)
  | (inr a, w1, out1) =>
      match k a w1 with
      | (r, w2, out2) => (r, w2, out1 ++ out2)
      end
  end.

(** [try { m } catch (e) { h e }] *)
Definition try_catch {A} (m : M A) (h : exn → M A) : M A := λ w,
  match m w with
  | (inl e, w1, out1) =>
      match h e w1 with
      | (r, w2, out2) => (r, w2, out1 ++ out2)
      end
  | (inr a, w1, out1) => (inr a, w1, out1)
  end.

Definition get : M world := λ w, (inr w, w, []).
Definition put (w' : world) : M unit := λ _, (inr tt, w', []).
Definition tell (e : effect) : M unit := λ w, (inr tt, w, [e]).
Definition lift {A} (r : exn + A) : M A := λ w, (r, w, []).

Notation "'let*' x ':=' m 'in' k" := (bind m (λ x, k))
  (at level 10, x name, m at level 200, k at level 200, only parsing).

Definition result_of {A} (r : (exn + A) * world * list effect) : exn + A := r.1.1.
Definition world_of {A} (r : (exn + A) * world * list effect) : world := r.1.2.
Definition effects_of {A} (r : (exn + A) * world * list effect) : list effect := r.2.

(** ** Mongoose *)

(** [mongoose.connection.readyState === 1] *)
Definition connected : M bool := let* w := get in ret (readyState w =? 1).

(** [new Date()] *)
Definition new_Date : M Z := let* w := get in ret (now w).

(** Mongoose's cast of a value to the schema type [String]. *)
Definition castString (v : option jsval) : option string :=
  match v with
  | Some (JStr s) => Some s
  | Some (JNum n) => Some (pretty n)
  | Some (JBool true) => Some "true"%string
  | Some (JBool false) => Some "false"%string
  | Some JNull | None => None
  end.

(** [new Location({ userId, latitude, longitude, accuracy })] *)
Definition new_Location (u : option jsval) (lat lon acc : option Z) : M draft :=
  let* t := new_Date in ret (mkDraft u lat lon acc t).

(** Validation against [locationSchema]: [userId], [latitude] and
    [longitude] are [required] (a required string must be non-empty);
    [accuracy] is optional. *)
Definition validate (d : draft) : option Location :=
  match castString (d_userId d), d_latitude d, d_longitude d with
  | Some (String a s), Some lat, Some lon =>
      Some (mkLocation (String a s) lat lon (default 0 (d_accuracy d)) (d_timestamp d))
  | _, _, _ => None
  end.

(** [location.save()]: rejects when validation fails or when the write does
    not go through ([write_ok = false]); otherwise the document is appended
    to the collection. *)
Definition save (write_ok : bool) (d : draft) : M Location :=
  match validate d with
  | None => throw ValidationError
  | Some doc =>
      if write_ok then
        let* w := get in
        let* _ := put (set_collection (collection w ++ [doc]) w) in
        let* _ := tell (Insert doc) in
        ret doc
      else throw MongoError
  end.

(** ** Socket.IO *)

Definition ADMIN_ROOM : string := "admin-room".

(** [io.emit(event, p)]: every connected socket receives it. *)
Definition io_emit (event : string) (p : payload) : M unit :=
  let* w := get in tell (Emit None event p (dom (sockets w))).

(** [io.to(room).emit(event, p)]: the sockets that are in [room] receive it. *)
Definition io_to_emit (room event : string) (p : payload) : M unit :=
  let* w := get in
  tell (Emit (Some room) event p
          (dom (filter (λ kv, room ∈ s_rooms kv.2) (sockets w)))).

(** [socket.join(room)] *)
Definition socket_join (id : sid) (room : string) : M unit :=
  let* w := get in
  put (set_sockets
         (alter (λ s, mkSocket (s_userId s) ({[room]} ∪ s_rooms s)) id (sockets w)) w).

Definition set_socket_userId (id : sid) (u : string) : M unit :=
  let* w := get in
  put (set_sockets (alter (λ s, mkSocket (Some u) (s_rooms s)) id (sockets w)) w).

(** ** HTTP responses *)

Record user_view := mkUserView {
  uv_userId : string;
  uv_latitude : Z;
  uv_longitude : Z;
  uv_accuracy : Z;
  uv_lastSeen : Z;
  uv_firstSeen : Z;
  uv_locationCount : nat
}.

Inductive res_json :=
| JError (error : string)
| JProcessed (saved : bool)
| JSaved (data : Location)
| JOffline
| JLocations (l : list Location)
| JUsers (l : list user_view).

Record response := mkResponse {
  status : nat;
  json : res_json
}.

(** ** [POST /api/location] *)

Definition is_undefined {A} (x : option A) : bool :=
  match x with None => true | Some _ => false end.

(** [location?.timestamp || new Date()] *)
Definition timestamp_or_now (location : option Location) : M Z :=
  match location with
  | Some l => ret (timestamp l)
  | None => new_Date
  end.

(** The two emissions that end the handler. *)
Definition emit_location_updates (body : position_input)
    (location : option Location) : M unit :=
  let* t1 := timestamp_or_now location in
  let* _ := io_emit "locationUpdate"
              (mkPayload (in_userId body) (in_latitude body) (in_longitude body)
                 (in_accuracy body) t1 None) in
  let* t2 := timestamp_or_now location in
  io_to_emit ADMIN_ROOM "adminLocationUpdate"
    (mkPayload (in_userId body) (in_latitude body) (in_longitude body)
       (in_accuracy body) t2 (Some "user_update"%string)).

Definition post_api_location (write_ok : bool) (body : position_input) : M response :=
  try_catch
    (if negb (truthy (in_userId body)) || is_undefined (in_latitude body)
        || is_undefined (in_longitude body)
     then ret (mkResponse 400 (JError "Datos incompletos"))
     else
       let* ready := connected in
       let* location :=
         (if ready : bool then
            let* u := lift (toString (in_userId body)) in
            let* d := new_Location (Some (JStr u)) (in_latitude body)
                        (in_longitude body)
                        (Some (or_default (in_accuracy body) 0)) in
            let* doc := save write_ok d in
            ret (Some doc)
          else ret None) in
       let* _ := emit_location_updates body location in
       ret (mkResponse 200 (JProcessed (negb (is_undefined location)))))
    (λ _, ret (mkResponse 500 (JError "Error interno del servidor"))).

(** *** The first revision of the handler

    [src/server.js] keeps an earlier revision of [POST /api/location]: with
    the store not connected it emits [locationUpdate] only and answers
    [offline: true]; otherwise it saves, emits both events with the
    document's timestamp and answers with the document. *)
Module ServerJs.

Definition post_api_location (write_ok : bool) (body : position_input) : M response :=
  try_catch
    (if negb (truthy (in_userId body)) || is_undefined (in_latitude body)
        || is_undefined (in_longitude body)
     then ret (mkResponse 400 (JError "Datos incompletos"))
     else
       let* ready := connected in
       if negb ready then
         let* t := new_Date in
         let* _ := io_emit "locationUpdate"
                     (mkPayload (in_userId body) (in_latitude body)
                        (in_longitude body) (in_accuracy body) t None) in
         ret (mkResponse 200 JOffline)
       else
         let* u := lift (toString (in_userId body)) in
         let* d := new_Location (Some (JStr u)) (in_latitude body)
                     (in_longitude body)
                     (Some (or_default (in_accuracy body) 0)) in
         let* location := save write_ok d in
         let* _ := io_emit "locationUpdate"
                     (mkPayload (in_userId body) (in_latitude body)
                        (in_longitude body) (in_accuracy body)
                        (timestamp location) None) in
         let* _ := io_to_emit ADMIN_ROOM "adminLocationUpdate"
                     (mkPayload (in_userId body) (in_latitude body)
                        (in_longitude body) (in_accuracy body)
                        (timestamp location) (Some "user_update"%string)) in
         ret (mkResponse 200 (JSaved location)))
    (λ _, ret (mkResponse 500 (JError "Error interno del servidor"))).

End ServerJs.

(** ** Socket handlers *)

(** The argument of [register-user]; the message itself may be absent. *)
Record register_data := mkRegister {
  rd_userId : option jsval
}.

Definition presence (u : string) (kind : string) (t : Z) : payload :=
  mkPayload (Some (JStr u)) None None None t (Some kind).

(** [io.on('connection', ...)]: a new socket, bound to nobody, in no room. *)
Definition on_connection (id : sid) : M unit :=
  let* w := get in
  put (set_sockets (<[id := mkSocket None ∅]> (sockets w)) w).

(** [socket.on("register-user", ...)] *)
Definition on_register_user (id : sid) (data : option register_data) : M unit :=
  match data with
  | None => ret tt
  | Some d =>
      if negb (truthy (rd_userId d)) then ret tt
      else
        let* u := lift (toString (rd_userId d)) in
        let* _ := set_socket_userId id u in
        let* t := new_Date in
        io_to_emit ADMIN_ROOM "adminLocationUpdate" (presence u "user_connected" t)
  end.

(** [socket.on("send-location", ...)] *)
Definition on_send_location (write_ok : bool) (loc : option position_input) : M unit :=
  match loc with
  | None => ret tt
  | Some l =>
      if negb (truthy (in_userId l)) then ret tt
      else
        let* t1 := new_Date in
        let* _ := io_to_emit ADMIN_ROOM "adminLocationUpdate"
                    (mkPayload (in_userId l) (in_latitude l) (in_longitude l)
                       (in_accuracy l) t1 (Some "user_update"%string)) in
        let* t2 := new_Date in
        let* _ := io_emit "locationUpdate"
                    (mkPayload (in_userId l) (in_latitude l) (in_longitude l)
                       (in_accuracy l) t2 None) in
        let* ready := connected in
        if ready : bool then
          let* d := new_Location (in_userId l) (in_latitude l) (in_longitude l)
                      (Some (or_default (in_accuracy l) 0)) in
          try_catch (let* _ := save write_ok d in ret tt) (λ _, ret tt)
        else ret tt
  end.

(** [socket.on('join-admin-room', ...)] *)
Definition on_join_admin_room (id : sid) : M unit := socket_join id ADMIN_ROOM.

(** [socket.on('disconnect', ...)]: Socket.IO has taken the socket out of
    its rooms and of the server's socket table when the handler runs. *)
Definition on_disconnect (id : sid) : M unit :=
  let* w := get in
  match sockets w !! id with
  | None => ret tt
  | Some s =>
      let* _ := put (set_sockets (delete id (sockets w)) w) in
      if truthy (JStr <$> s_userId s) then
        let* t := new_Date in
        io_to_emit ADMIN_ROOM "adminLocationUpdate"
          (presence (default ""%string (s_userId s)) "user_disconnected" t)
      else ret tt
  end.

(** ** The server as a transition system *)

Inductive input :=
| Connection (id : sid)
| RegisterUser (id : sid) (data : option register_data)
| SendLocation (id : sid) (write_ok : bool) (loc : option position_input)
| JoinAdminRoom (id : sid)
| Disconnect (id : sid)
| PostLocation (write_ok : bool) (body : position_input)
| Tick (dt : Z)
| MongoState (rs : Z).

(** A socket event is only delivered to the handlers of a live socket. *)
Definition on_socket (id : sid) (m : M unit) : M unit :=
  let* w := get in
  match sockets w !! id with
  | Some _ => m
  | None => ret tt
  end.

Definition step (i : input) : M unit :=
  match i with
  | Connection id =>
      let* w := get in
      match sockets w !! id with
      | Some _ => ret tt
      | None => on_connection id
      end
  | RegisterUser id data => on_socket id (on_register_user id data)
  | SendLocation id write_ok loc => on_socket id (on_send_location write_ok loc)
  | JoinAdminRoom id => on_socket id (on_join_admin_room id)
  | Disconnect id => on_disconnect id
  | PostLocation write_ok body => let* _ := post_api_location write_ok body in ret tt
  | Tick dt =>
      let* w := get in
      put (mkWorld (readyState w) (collection w) (now w + dt) (sockets w))
  | MongoState rs =>
      let* w := get in
      put (mkWorld rs (collection w) (now w) (sockets w))
  end.

(** Runs a sequence of inputs; an exception that escapes a handler ends that
    handler only. The output pairs every input with the effects it caused. *)
Fixpoint exec (tr : list input) (w : world) : world * list (input * list effect) :=
  match tr with
  | [] => (w, [])
  | i :: tr' =>
      let r := step i w in
      let r' := exec tr' (world_of r) in
      (r'.1, (i, effects_of r) :: r'.2)
  end.

(** ** Read queries *)

(** [parseInt(s)]: leading (ASCII) white space is skipped, then an optional
    sign, an optional [0x] prefix and the longest run of digits of the radix;
    [None] is [NaN]. The argument is [req.query.limit]: [None] when the query
    has no such parameter ([parseInt(undefined)] is [NaN]). *)
Definition is_space (c : ascii) : bool :=
  let n := nat_of_ascii c in
  ((9 <=? n)%nat && (n <=? 13)%nat) || (n =? 32)%nat.

Fixpoint trim_start (s : string) : string :=
  match s with
  | String c r => if is_space c then trim_start r else s
  | EmptyString => s
  end.

Definition digit_of (radix : Z) (c : ascii) : option Z :=
  let n := Z.of_nat (nat_of_ascii c) in
  let v := if (48 <=? n) && (n <=? 57) then Some (n - 48)
           else if (97 <=? n) && (n <=? 122) then Some (n - 87)
           else if (65 <=? n) && (n <=? 90) then Some (n - 55)
           else None in
  match v with
  | Some d => if d <? radix then Some d else None
  | None => None
  end.

Fixpoint digits (radix : Z) (s : string) (acc : option Z) : option Z :=
  match s with
  | String c r =>
      match digit_of radix c with
      | Some d => digits radix r (Some (radix * default 0 acc + d))
      | None => acc
      end
  | EmptyString => acc
  end.

Definition parseInt (q : option string) : option Z :=
  match q with
  | None => None
  | Some s =>
      let s1 := trim_start s in
      let '(sign, s2) :=
        match s1 with
        | String "-" r => (-1, r)
        | String "+" r => (1, r)
        | _ => (1, s1)
        end in
      let '(radix, s3) :=
        match s2 with
        | String "0" (String "x" r) | String "0" (String "X" r) => (16, r)
        | _ => (10, s2)
        end in
      match digits radix s3 None with
      | Some n => Some (sign * n)
      | None => None
      end
  end.

(** [Location.find({ userId })] *)
Definition find (u : string) (c : list Location) : list Location :=
  filter (λ d, userId d = u) c.

Definition newer_first (a b : Location) : Prop := timestamp b ≤ timestamp a.
Definition older_first (a b : Location) : Prop := timestamp a ≤ timestamp b.

Global Instance newer_first_dec a b : Decision (newer_first a b) :=
  Z_le_dec (timestamp b) (timestamp a).
Global Instance older_first_dec a b : Decision (older_first a b) :=
  Z_le_dec (timestamp a) (timestamp b).

(** [.sort({ timestamp: -1 })] and [.sort({ timestamp: 1 })] *)
Definition sort_desc : list Location → list Location := merge_sort newer_first.
Definition sort_asc : list Location → list Location := merge_sort older_first.

(** [.limit(n)] as MongoDB reads it: [0] is no limit, and a negative limit
    bounds the result by its absolute value. *)
Definition limit {A} (n : Z) (l : list A) : list A :=
  if n =? 0 then l else take (Z.abs_nat n) l.

(** Awaiting a read: the result, or a rejection when the read fails. *)
Definition await_read {A} (read_ok : bool) (f : list Location → A) : M A :=
  if read_ok then let* w := get in ret (f (collection w)) else throw MongoError.

(** [GET /api/locations/:userId] *)
Definition get_api_locations (read_ok : bool) (u : string) (q : option string)
    : M response :=
  try_catch
    (let* ready := connected in
     if negb ready then ret (mkResponse 200 (JLocations []))
     else
       let lim := or_default (parseInt q) 50 in
       let* locations :=
         await_read read_ok (λ c, limit lim (sort_desc (find u c))) in
       ret (mkResponse 200 (JLocations locations)))
    (λ _, ret (mkResponse 200 (JLocations []))).

(** [GET /api/admin/user/:userId] *)
Definition get_api_admin_user (read_ok : bool) (u : string) (q : option string)
    : M response :=
  try_catch
    (let lim := or_default (parseInt q) 500 in
     let* ready := connected in
     if negb ready then ret (mkResponse 200 (JLocations []))
     else
       let* locations :=
         await_read read_ok (λ c, limit lim (sort_asc (find u c))) in
       ret (mkResponse 200 (JLocations locations)))
    (λ _, ret (mkResponse 500 (JError "Error interno del servidor"))).

(** *** The aggregation pipeline of [GET /api/admin/users] *)

Record group := mkGroup {
  g_id : string;
  lastLocation : Location;
  locationCount : nat;
  firstSeen : Z;
  lastSeen : Z
}.

(** One document enters the [$group] stage: it opens the group of its
    [userId] ([$first] keeps it as [lastLocation]) or updates the
    accumulators of the group that is already there. *)
Fixpoint group_add (d : Location) (gs : list group) : list group :=
  match gs with
  | [] => [mkGroup (userId d) d 1 (timestamp d) (timestamp d)]
  | g :: gs' =>
      if decide (g_id g = userId d) then
        mkGroup (g_id g) (lastLocation g) (S (locationCount g))
          (Z.min (firstSeen g) (timestamp d)) (Z.max (lastSeen g) (timestamp d))
        :: gs'
      else g :: group_add d gs'
  end.

(** [$group: { _id: "$userId", ... }] *)
Definition group_by_userId (docs : list Location) : list group :=
  fold_left (λ gs d, group_add d gs) docs [].

(** [$project] *)
Definition project (g : group) : user_view :=
  mkUserView (g_id g) (latitude (lastLocation g)) (longitude (lastLocation g))
    (accuracy (lastLocation g)) (lastSeen g) (firstSeen g) (locationCount g).

Definition last_seen_first (a b : user_view) : Prop := uv_lastSeen b ≤ uv_lastSeen a.

Global Instance last_seen_first_dec a b : Decision (last_seen_first a b) :=
  Z_le_dec (uv_lastSeen b) (uv_lastSeen a).

(** [Location.aggregate([$sort, $group, $project, $sort])] *)
Definition aggregate (c : list Location) : list user_view :=
  merge_sort last_seen_first (project <$> group_by_userId (sort_desc c)).

(** [GET /api/admin/users] *)
Definition get_api_admin_users (read_ok : bool) : M response :=
  try_catch
    (let* ready := connected in
     if negb ready then ret (mkResponse 200 (JUsers []))
     else
       let* users := await_read read_ok aggregate in
       ret (mkResponse 200 (JUsers users)))
    (λ _, ret (mkResponse 200 (JUsers []))).

(** ** Sample data *)

(** A connected, empty store and no socket, at time 1000. *)
Definition w0 : world := mkWorld 1 [] 1000 ∅.

(** ** Vocabulary of the properties *)

(** The input names a subject and carries both coordinates. *)
Definition valid_input (i : position_input) : Prop :=
  truthy (in_userId i) = true ∧ is_Some (in_latitude i) ∧ is_Some (in_longitude i).

(** The payload of a position event: the fields of the input as they came,
    a timestamp and, for the admin room, a type. *)
Definition update_payload (i : position_input) (t : Z) (ty : option string) : payload :=
  mkPayload (in_userId i) (in_latitude i) (in_longitude i) (in_accuracy i) t ty.

(** The sockets that are in the admin room. *)
Definition admins (w : world) : gset sid :=
  dom (filter (λ kv : sid * socket, ADMIN_ROOM ∈ s_rooms kv.2) (sockets w)).

(** The document the synchronous channel builds from a complete body. *)
Definition document_of (i : position_input) (u : string) (t : Z) : Location :=
  mkLocation u (default 0 (in_latitude i)) (default 0 (in_longitude i))
    (or_default (in_accuracy i) 0) t.

(** The document [send-location] gets written, if any: the store must be
    connected, the draft must pass validation and the write must go through. *)
Definition send_location_document (write_ok : bool) (l : position_input)
    (w : world) : option Location :=
  if (readyState w =? 1) && write_ok then
    validate (mkDraft (in_userId l) (in_latitude l) (in_longitude l)
                (Some (or_default (in_accuracy l) 0)) (now w))
  else None.

(** What a socket receives out of a sequence of effects. *)
Definition inbox (id : sid) (out : list effect) : list (string * payload) :=
  omap (λ e, match e with
             | Emit _ ev p rs => if decide (id ∈ rs) then Some (ev, p) else None
             | Insert _ => None
             end) out.

(** A world with two sockets, the second one in the admin room. *)
Definition w_two : world :=
  (exec [Connection 1%nat; Connection 2%nat; JoinAdminRoom 2%nat] w0).1.

(** [{ userId: "ana", longitude: -99 }] *)
Definition no_latitude : position_input :=
  mkInput (Some (JStr "ana")) None (Some (-99)) None.

(** [{ userId: "ana", latitude: 19, longitude: -99 }] *)
Definition complete : position_input :=
  mkInput (Some (JStr "ana")) (Some 19) (Some (-99)) None.




(** The presence events are the emissions of type [user_connected] and
    [user_disconnected]. *)
Definition is_presence (e : effect) : bool :=
  match e with
  | Emit _ _ p _ =>
      match p_type p with
      | Some k => bool_decide (k = "user_connected"%string ∨ k = "user_disconnected"%string)
      | None => false
      end
  | Insert _ => false
  end.

Definition presence_of (out : list effect) : list effect := List.filter is_presence out.




Definition ana : option jsval := Some (JStr "ana").


(** A store that is not connected. *)
Definition w_down : world := mkWorld 0 [mkLocation "ana" 19 (-99) 0 1000] 2000 ∅.

(** A connected store with three reports of one subject. *)
Definition three_reports : world :=
  mkWorld 1
    [mkLocation "ana" 19 (-99) 0 1000; mkLocation "ana" 20 (-98) 0 3000;
     mkLocation "ana" 21 (-97) 0 2000] 4000 ∅.

(** Three reports of ["ana"], the last at 3000, and one of ["bea"] at 500. *)
Definition two_subjects : list Location :=
  [mkLocation "ana" 19 (-99) 0 1000; mkLocation "bea" 40 (-3) 5 500;
   mkLocation "ana" 20 (-98) 0 3000; mkLocation "ana" 21 (-97) 0 2000].

(** What a group has to say about the documents that went into it. *)
Definition summarises (docs : list Location) (g : group) : Prop :=
  head (find (g_id g) docs) = Some (lastLocation g)
  ∧ locationCount g = length (find (g_id g) docs)
  ∧ (∀ d, d ∈ find (g_id g) docs → firstSeen g ≤ timestamp d ≤ lastSeen g)
  ∧ (∃ d, d ∈ find (g_id g) docs ∧ timestamp d = firstSeen g)
  ∧ (∃ d, d ∈ find (g_id g) docs ∧ timestamp d = lastSeen g).

(** One entry of the aggregation, read against the collection. *)
Definition entry_of (c : list Location) (e : user_view) : Prop :=
  (∃ d, d ∈ c ∧ userId d = uv_userId e ∧ timestamp d = uv_lastSeen e
        ∧ latitude d = uv_latitude e ∧ longitude d = uv_longitude e
        ∧ accuracy d = uv_accuracy e)
  ∧ (∃ d, d ∈ c ∧ userId d = uv_userId e ∧ timestamp d = uv_firstSeen e)
  ∧ (∀ d, d ∈ c → userId d = uv_userId e →
       uv_firstSeen e ≤ timestamp d ≤ uv_lastSeen e)
  ∧ uv_locationCount e = length (filter (λ d, userId d = uv_userId e) c).

(** ** Vocabulary of the properties of whole runs *)

(** The documents written by a sequence of effects, in order. *)
Definition inserted (out : list effect) : list Location :=
  omap (λ e, match e with Insert d => Some d | Emit _ _ _ _ => None end) out.

(** All the effects of a run, in order. *)
Definition all_effects (log : list (input * list effect)) : list effect :=
  flat_map snd log.


Definition is_disconnect (id : sid) (i : input) : bool :=
  match i with Disconnect j => bool_decide (j = id) | _ => false end.

Definition is_join (id : sid) (i : input) : bool :=
  match i with JoinAdminRoom j => bool_decide (j = id) | _ => false end.

Definition is_connection (id : sid) (i : input) : bool :=
  match i with Connection j => bool_decide (j = id) | _ => false end.

(** The emissions among the effects. *)
Definition emissions (out : list effect) : list effect :=
  List.filter (λ e, match e with Emit _ _ _ _ => true | Insert _ => false end) out.

(** *** The second revision of the handler

    [src/server.js] also keeps a second revision of [POST /api/location]:
    with the store not connected it builds the location object itself,
    stamped with the clock, and then goes on as if it had been saved; its
    answer carries the location. *)
Module ServerJsSecond.

Definition post_api_location (write_ok : bool) (body : position_input) : M response :=
  try_catch
    (if negb (truthy (in_userId body)) || is_undefined (in_latitude body)
        || is_undefined (in_longitude body)
     then ret (mkResponse 400 (JError "Datos incompletos"))
     else
       let* ready := connected in
       let* location :=
         (if ready : bool then
            let* u := lift (toString (in_userId body)) in
            let* d := new_Location (Some (JStr u)) (in_latitude body)
                        (in_longitude body)
                        (Some (or_default (in_accuracy body) 0)) in
            save write_ok d
          else
            let* u := lift (toString (in_userId body)) in
            let* t := new_Date in
            ret (document_of body u t)) in
       let* _ := io_emit "locationUpdate"
                   (mkPayload (in_userId body) (in_latitude body)
                      (in_longitude body) (in_accuracy body)
                      (timestamp location) None) in
       let* _ := io_to_emit ADMIN_ROOM "adminLocationUpdate"
                   (mkPayload (in_userId body) (in_latitude body)
                      (in_longitude body) (in_accuracy body)
                      (timestamp location) (Some "user_update"%string)) in
       ret (mkResponse 200 (JSaved location)))
    (λ _, ret (mkResponse 500 (JError "Error interno del servidor"))).

End ServerJsSecond.


(** ** Accounts: [/api/register], [/api/login], [/api/users/:identifier]

    The account routes work on the [users] collection only. A string is a
    sequence of code units below 256; request fields are strings when
    present. Whether the store answers is an argument ([db_ok]); a handler
    that awaits the store several times is given one answer for each
    ([db_ok 0] for the first). *)
Module Auth.

(** *** Strings *)

(** White space as [trim()] and the class [\s] see it. *)
Definition is_white (c : ascii) : bool :=
  let n := nat_of_ascii c in
  ((9 <=? n)%nat && (n <=? 13)%nat) || (n =? 32)%nat || (n =? 160)%nat.

Fixpoint trimStart (s : string) : string :=
  match s with
  | String c r => if is_white c then trimStart r else s
  | EmptyString => s
  end.

Fixpoint trimEnd (s : string) : string :=
  match s with
  | String c r =>
      match trimEnd r with
      | EmptyString => if is_white c then EmptyString else String c EmptyString
      | r' => String c r'
      end
  | EmptyString => EmptyString
  end.

(** [s.trim()] *)
Definition trim (s : string) : string := trimEnd (trimStart s).

Definition lower_char (c : ascii) : ascii :=
  let n := nat_of_ascii c in
  if ((65 <=? n)%nat && (n <=? 90)%nat)
     || ((192 <=? n)%nat && (n <=? 222)%nat && negb (n =? 215)%nat)
  then ascii_of_nat (n + 32) else c.

(** [s.toLowerCase()] *)
Fixpoint toLowerCase (s : string) : string :=
  match s with
  | String c r => String (lower_char c) (toLowerCase r)
  | EmptyString => EmptyString
  end.

(** [s.includes(c)] for a one-character [c]. *)
Fixpoint includes (c : ascii) (s : string) : bool :=
  match s with
  | String a r => if Ascii.eqb a c then true else includes c r
  | EmptyString => false
  end.

(** *** Regular expressions *)

Inductive regex :=
| Fail
| Eps
| Chars (p : ascii → bool)
| Seq (r1 r2 : regex)
| Alt (r1 r2 : regex)
| Star (r : regex).

(** [r+] *)
Definition Plus (r : regex) : regex := Seq r (Star r).

Fixpoint nullable (r : regex) : bool :=
  match r with
  | Fail => false
  | Eps => true
  | Chars _ => false
  | Seq r1 r2 => nullable r1 && nullable r2
  | Alt r1 r2 => nullable r1 || nullable r2
  | Star _ => true
  end.

(** What is left of [r] after the character [c]. *)
Fixpoint deriv (c : ascii) (r : regex) : regex :=
  match r with
  | Fail => Fail
  | Eps => Fail
  | Chars p => if p c then Eps else Fail
  | Seq r1 r2 =>
      if nullable r1 then Alt (Seq (deriv c r1) r2) (deriv c r2)
      else Seq (deriv c r1) r2
  | Alt r1 r2 => Alt (deriv c r1) (deriv c r2)
  | Star r1 => Seq (deriv c r1) (Star r1)
  end.

(** [/^r$/.test(s)] *)
Fixpoint test (r : regex) (s : string) : bool :=
  match s with
  | String c s' => test (deriv c r) s'
  | EmptyString => nullable r
  end.

(** [[^\s@]] *)
Definition not_space_nor_at (c : ascii) : bool :=
  negb (is_white c) && negb (Ascii.eqb c "@").

(** [/^[^\s@]+@[^\s@]+\.[^\s@]+$/] *)
Definition emailRegex : regex :=
  Seq (Plus (Chars not_space_nor_at))
    (Seq (Chars (Ascii.eqb "@"))
       (Seq (Plus (Chars not_space_nor_at))
          (Seq (Chars (Ascii.eqb "."))
             (Plus (Chars not_space_nor_at))))).

(** *** The [User] model *)

Record User := mkUser {
  _id : nat;
  username : string;
  email : string;
  password : string;
  role : string;
  createdAt : Z
}.

Inductive auth_exn :=
| DbError
| ValidationFailed
| DuplicateKey (field : string).

(** An identifier no stored user has. *)
Definition fresh_id (users : list User) : nat :=
  S (foldr Nat.max 0%nat (_id <$> users)).

(** [new User({ username, email, password, role })]: the schema trims and
    lower-cases the email; [createdAt] defaults to the clock. *)
Definition new_User (users : list User) (now : Z)
    (u e p r : string) : User :=
  mkUser (fresh_id users) u (toLowerCase (trim e)) p r now.

(** [await User.findOne(filter)]: the first user that matches. *)
Definition findOne (db_ok : bool) (f : User → bool) (users : list User)
    : auth_exn + option User :=
  if db_ok then inr (List.find f users) else inl DbError.

Definition is_empty (s : string) : bool :=
  match s with EmptyString => true | String _ _ => false end.

(** [await user.save()]: the schema requires [username], [email] and
    [password] and restricts [role] to [user] and [admin]; the unique indexes
    refuse a second user with the same [email] or [username]. *)
Definition save (db_ok : bool) (u : User) (users : list User)
    : auth_exn + list User :=
  if is_empty (username u) || is_empty (email u) || is_empty (password u)
     || negb (String.eqb (role u) "user" || String.eqb (role u) "admin")
  then inl ValidationFailed
  else if negb db_ok then inl DbError
  else if existsb (λ x, String.eqb (email x) (email u)) users
  then inl (DuplicateKey "email")
  else if existsb (λ x, String.eqb (username x) (username u)) users
  then inl (DuplicateKey "username")
  else inr (users ++ [u]).

(** *** Requests and answers *)

Record register_body := mkRegisterBody {
  rb_username : option string;
  rb_email : option string;
  rb_password : option string;
  rb_role : option string
}.

Record login_body := mkLoginBody {
  lb_username : option string;
  lb_password : option string
}.

Inductive auth_json :=
| Failure (error : string)
| Registered (id : nat) (name mail rol : string)
| LoggedIn (id : nat) (name rol : string)
| Exists (found : bool) (name mail rol : option string)
| ErrorOnly (error : string).

Record auth_response := mkAuthResponse {
  auth_status : nat;
  auth_json_of : auth_json
}.

(** [x || d] on an optional string: the empty string is falsy. *)
Definition or_string (x : option string) (d : string) : string :=
  match x with
  | Some (String a r) => String a r
  | _ => d
  end.

(** [!x] on an optional string. *)
Definition missing (x : option string) : bool :=
  match x with
  | Some (String _ _) => false
  | _ => true
  end.

(** [x || null] on a string. *)
Definition or_null (x : string) : option string :=
  match x with
  | String _ _ => Some x
  | EmptyString => None
  end.

Definition bad_request (msg : string) : auth_response :=
  mkAuthResponse 400 (Failure msg).

Definition USERNAME_TAKEN : string := "El nombre de usuario ya está registrado".
Definition EMAIL_TAKEN : string := "El email ya está registrado".
Definition BAD_CREDENTIALS : string := "Usuario o contraseña incorrectos".
Definition INTERNAL_ERROR : string := "Error interno del servidor".

(** The [try] block of [POST /api/register]: the answer and the users
    after it, or the exception that was thrown. *)
Definition register_try (db_ok : nat → bool) (now : Z) (body : register_body)
    (users : list User) : auth_exn + (auth_response * list User) :=
  if missing (rb_username body) || missing (rb_password body)
  then inr (bad_request "Usuario y contraseña son requeridos", users)
  else if missing (rb_email body)
  then inr (bad_request "Email es requerido", users)
  else
    let u := default EmptyString (rb_username body) in
    let e := default EmptyString (rb_email body) in
    let p := default EmptyString (rb_password body) in
    if negb (test emailRegex (trim e))
    then inr (bad_request "Formato de email inválido", users)
    else if (String.length u <? 3)%nat
    then inr (bad_request "El usuario debe tener al menos 3 caracteres", users)
    else if (String.length p <? 4)%nat
    then inr (bad_request "La contraseña debe tener al menos 4 caracteres", users)
    else
      match findOne (db_ok 0%nat) (λ x, String.eqb (username x) (trim u))
              users with
      | inl err => inl err
      | inr (Some _) => inr (bad_request USERNAME_TAKEN, users)
      | inr None =>
          match findOne (db_ok 1%nat)
                  (λ x, String.eqb (email x) (toLowerCase (trim e))) users with
          | inl err => inl err
          | inr (Some _) => inr (bad_request EMAIL_TAKEN, users)
          | inr None =>
              let user := new_User users now (trim u) (toLowerCase (trim e)) p
                            (or_string (rb_role body) "user") in
              match save (db_ok 2%nat) user users with
              | inl err => inl err
              | inr users' =>
                  inr (mkAuthResponse 200
                         (Registered (_id user) (username user) (email user)
                            (role user)),
                       users')
              end
          end
      end.

(** [POST /api/register], with its [catch]. *)
Definition register (db_ok : nat → bool) (now : Z) (body : register_body)
    (users : list User) : auth_response * list User :=
  match register_try db_ok now body users with
  | inr r => r
  | inl (DuplicateKey "email") => (bad_request EMAIL_TAKEN, users)
  | inl (DuplicateKey "username") => (bad_request USERNAME_TAKEN, users)
  | inl _ => (mkAuthResponse 500 (Failure INTERNAL_ERROR), users)
  end.

(** [POST /api/login] *)
Definition login (db_ok : bool) (body : login_body) (users : list User)
    : auth_response :=
  if missing (lb_username body) || missing (lb_password body)
  then bad_request "Usuario y contraseña son requeridos"
  else
    let u := default EmptyString (lb_username body) in
    let p := default EmptyString (lb_password body) in
    match findOne db_ok (λ x, String.eqb (username x) (trim u)) users with
    | inl _ => mkAuthResponse 500 (Failure INTERNAL_ERROR)
    | inr None => mkAuthResponse 401 (Failure BAD_CREDENTIALS)
    | inr (Some user) =>
        if negb (String.eqb (password user) (trim p))
        then mkAuthResponse 401 (Failure BAD_CREDENTIALS)
        else mkAuthResponse 200
               (LoggedIn (_id user) (username user) (role user))
    end.

(** [GET /api/users/:identifier]: by email when the identifier has an [@],
    by username otherwise. *)
Definition get_user (db_ok : bool) (identifier : string) (users : list User)
    : auth_response :=
  let found :=
    if includes "@" identifier
    then findOne db_ok (λ x, String.eqb (email x) (toLowerCase (trim identifier)))
           users
    else findOne db_ok (λ x, String.eqb (username x) (trim identifier)) users in
  match found with
  | inl _ => mkAuthResponse 500 (ErrorOnly INTERNAL_ERROR)
  | inr None => mkAuthResponse 200 (Exists false None None None)
  | inr (Some user) =>
      mkAuthResponse 200
        (Exists true (or_null (username user)) (or_null (email user))
           (or_null (role user)))
  end.


(** The user that a registration with these fields stores. *)
Definition registered (users : list User) (now : Z) (u e p : string)
    (r : option string) : User :=
  mkUser (fresh_id users) (trim u) (toLowerCase (trim e)) p
    (or_string r "user") now.

(** What the handlers keep true of every stored user. *)
Definition well_formed (u : User) : Prop :=
  username u ≠ EmptyString
  ∧ trim (username u) = username u
  ∧ toLowerCase (trim (email u)) = email u
  ∧ test emailRegex (email u) = true
  ∧ (4 ≤ String.length (password u))%nat
  ∧ (role u = "user"%string ∨ role u = "admin"%string).

Definition consistent (users : list User) : Prop :=
  NoDup (username <$> users)
  ∧ NoDup (email <$> users)
  ∧ NoDup (_id <$> users)
  ∧ Forall well_formed users.

(** The strings of a regular expression. *)
Inductive lang : regex → string → Prop :=
| lang_eps : lang Eps EmptyString
| lang_chars p c : p c = true → lang (Chars p) (String c EmptyString)
| lang_seq r1 r2 s1 s2 : lang r1 s1 → lang r2 s2 → lang (Seq r1 r2) (s1 +:+ s2)
| lang_alt_l r1 r2 s : lang r1 s → lang (Alt r1 r2) s
| lang_alt_r r1 r2 s : lang r2 s → lang (Alt r1 r2) s
| lang_star_nil r : lang (Star r) EmptyString
| lang_star_cons r s1 s2 :
    lang r s1 → lang (Star r) s2 → lang (Star r) (s1 +:+ s2).

(** A non-empty string without white space and without [@]. *)
Fixpoint word (s : string) : bool :=
  match s with
  | String c EmptyString => not_space_nor_at c
  | String c r => not_space_nor_at c && word r
  | EmptyString => false
  end.

Definition sample_body : register_body :=
  mkRegisterBody (Some " Ana ") (Some " Ana@Example.ORG ") (Some "s3cret")
    None.

End Auth.

(** * Properties *)

(** ** Values *)

Lemma pretty_N_go_nonempty (x : N) (s : string) :
  s ≠ ""%string → pretty_N_go x s ≠ ""%string.
Proof.
  revert s. induction (N.lt_wf_0 x) as [x _ IH]; intros s Hs.
  destruct (decide (x = 0)%N) as [->|Hx].
  - by rewrite pretty_N_go_0.
  - rewrite pretty_N_go_step by lia.
    apply IH; [apply N.div_lt; lia | done].
Qed.

Lemma pretty_Z_nonempty (n : Z) : pretty n ≠ ""%string.
Proof.
  destruct n as [|p|p]; [done | | done].
  unfold pretty, pretty_Z, pretty, pretty_positive, pretty, pretty_N.
  rewrite decide_False by done.
  rewrite pretty_N_go_step by lia.
  by apply pretty_N_go_nonempty.
Qed.

(** A truthy value has a string form, and that string is not empty. *)
Lemma truthy_toString (v : option jsval) :
  truthy v = true →
  ∃ a s, toString v = inr (String a s) ∧ castString v = Some (String a s).
Proof.
  destruct v as [[|[]|n|[|a s]]|]; simpl; try done; eauto.
  intros _. pose proof (pretty_Z_nonempty n) as Hn.
  destruct (pretty n) as [|a s] eqn:E; [done | eauto].
Qed.

(** ** The synchronous channel *)

Lemma elem_of_admins (w : world) (id : sid) :
  id ∈ admins w ↔ ∃ s, sockets w !! id = Some s ∧ ADMIN_ROOM ∈ s_rooms s.
Proof.
  unfold admins. rewrite elem_of_dom. unfold is_Some.
  setoid_rewrite map_lookup_filter_Some. naive_solver.
Qed.

(** An incomplete body is answered with 400 before anything else happens. *)
Lemma post_api_location_invalid (write_ok : bool) (body : position_input) (w : world) :
  ¬ valid_input body →
  post_api_location write_ok body w
  = (inr (mkResponse 400 (JError "Datos incompletos")), w, []).
Proof.
  intros Hv. unfold post_api_location, try_catch.
  destruct (truthy (in_userId body)) eqn:Hu; [|done].
  destruct (in_latitude body) as [lat|] eqn:Hlat; [|done].
  destruct (in_longitude body) as [lon|] eqn:Hlon; [|done].
  destruct Hv. unfold valid_input. rewrite Hu, Hlat, Hlon. eauto.
Qed.

(** With the store connected and the write going through: insert, then the
    two emissions stamped with the document's timestamp. *)
Lemma post_api_location_saved (body : position_input) (w : world) :
  valid_input body → readyState w = 1 →
  ∃ u, toString (in_userId body) = inr u ∧
    post_api_location true body w
    = (inr (mkResponse 200 (JProcessed true)),
       set_collection (collection w ++ [document_of body u (now w)]) w,
       [Insert (document_of body u (now w));
        Emit None "locationUpdate" (update_payload body (now w) None) (dom (sockets w));
        Emit (Some ADMIN_ROOM) "adminLocationUpdate"
          (update_payload body (now w) (Some "user_update"%string)) (admins w)]).
Proof.
  destruct body as [uid lat lon acc].
  unfold valid_input; simpl. intros (Hu & [x ->] & [y ->]) Hr.
  destruct (truthy_toString _ Hu) as (a & s & Hs & _).
  exists (String a s). split; [done|].
  unfold post_api_location, try_catch, bind, connected, get, ret. simpl.
  rewrite Hu. simpl. rewrite Hr. simpl. rewrite Hs. reflexivity.
Qed.

(** With the store not connected: nothing is written, both emissions are
    stamped with the clock, and the answer says [saved: false]. *)
Lemma post_api_location_offline (write_ok : bool) (body : position_input) (w : world) :
  valid_input body → readyState w ≠ 1 →
  post_api_location write_ok body w
  = (inr (mkResponse 200 (JProcessed false)), w,
     [Emit None "locationUpdate" (update_payload body (now w) None) (dom (sockets w));
      Emit (Some ADMIN_ROOM) "adminLocationUpdate"
        (update_payload body (now w) (Some "user_update"%string)) (admins w)]).
Proof.
  destruct body as [uid lat lon acc].
  unfold valid_input; simpl. intros (Hu & [x ->] & [y ->]) Hr.
  unfold post_api_location, try_catch, bind, connected, get, ret. simpl.
  rewrite Hu. simpl.
  destruct (Z.eqb_spec (readyState w) 1) as [|_]; [done|].
  reflexivity.
Qed.

(** With the store connected and the write rejected: the rejection is caught
    by the handler's [catch], which answers 500; nothing was emitted. *)
Lemma post_api_location_write_error (body : position_input) (w : world) :
  valid_input body → readyState w = 1 →
  post_api_location false body w
  = (inr (mkResponse 500 (JError "Error interno del servidor")), w, []).
Proof.
  destruct body as [uid lat lon acc].
  unfold valid_input; simpl. intros (Hu & [x ->] & [y ->]) Hr.
  destruct (truthy_toString _ Hu) as (a & s & Hs & _).
  unfold post_api_location, try_catch, bind, connected, get, ret. simpl.
  rewrite Hu. simpl. rewrite Hr. simpl. rewrite Hs. reflexivity.
Qed.



(** ** The asynchronous channel *)

(** A message that names a subject is always forwarded, to the admin room
    first and to everybody second; the write comes last and its failure is
    swallowed. *)
Lemma on_send_location_subject (write_ok : bool) (l : position_input) (w : world) :
  truthy (in_userId l) = true →
  on_send_location write_ok (Some l) w
  = (inr tt,
     from_option (λ doc, set_collection (collection w ++ [doc]) w) w
       (send_location_document write_ok l w),
     Emit (Some ADMIN_ROOM) "adminLocationUpdate"
       (update_payload l (now w) (Some "user_update"%string)) (admins w)
     :: Emit None "locationUpdate" (update_payload l (now w) None) (dom (sockets w))
     :: from_option (λ doc, [Insert doc]) [] (send_location_document write_ok l w)).
Proof.
  intros Hu. unfold on_send_location, send_location_document.
  rewrite Hu. unfold try_catch, bind, connected, get, ret, new_Date,
    io_to_emit, io_emit, tell, new_Location, save. simpl.
  destruct (readyState w =? 1); simpl; [|done].
  match goal with |- context [validate ?d] => destruct (validate d) as [doc|] end;
    destruct write_ok; simpl; reflexivity.
Qed.

(** A message without a subject is dropped. *)
Lemma on_send_location_no_subject (write_ok : bool) (loc : option position_input)
    (w : world) :
  from_option (λ l, truthy (in_userId l)) false loc = false →
  on_send_location write_ok loc w = (inr tt, w, []).
Proof.
  destruct loc as [l|]; simpl; [|done].
  intros Hu. unfold on_send_location. by rewrite Hu.
Qed.

(** ** Validation on the two channels *)

(** C1. A submission that lacks the subject, the latitude or the longitude
    should cause no event and no record on either channel. The asynchronous
    channel only looks at the subject: for [{ userId: "ana", longitude: -99 }]
    it emits both events (and writes nothing), where the synchronous channel
    answers 400 and does nothing else. *)
Theorem send_location_without_latitude_is_broadcast :
  on_send_location true (Some no_latitude) w_two
  = (inr tt, w_two,
     [Emit (Some ADMIN_ROOM) "adminLocationUpdate"
        (update_payload no_latitude 1000 (Some "user_update"%string)) {[2%nat]};
      Emit None "locationUpdate" (update_payload no_latitude 1000 None)
        {[1%nat; 2%nat]}])
  ∧ post_api_location true no_latitude w_two
    = (inr (mkResponse 400 (JError "Datos incompletos")), w_two, []).
Proof. split; vm_compute; reflexivity. Qed.

(** ** A failed write *)

(** C3. When persistence fails the submission should still be distributed
    and answered with [saved: false]. For a complete body, a connected store
    and a write that is rejected, the handler answers 500 and emits nothing. *)
Theorem post_location_write_error_is_not_distributed :
  readyState w_two = 1
  ∧ post_api_location false complete w_two
    = (inr (mkResponse 500 (JError "Error interno del servidor")), w_two, []).
Proof. split; vm_compute; reflexivity. Qed.

(** ** Fan-out *)



(** ** Stored and broadcast accuracy *)



(** ** The two channels side by side *)





(** ** Presence *)



Section one_socket.

(** The socket whose events are followed. *)
Context (id : sid).



Lemma post_api_location_sockets (write_ok : bool) (body : position_input) (w : world) :
  sockets (world_of (post_api_location write_ok body w)) = sockets w.
Proof.
  destruct (truthy (in_userId body)) eqn:Hu;
    [destruct (in_latitude body) as [lat|] eqn:Hlat;
     [destruct (in_longitude body) as [lon|] eqn:Hlon|]|].
  - assert (valid_input body) as Hv by (unfold valid_input; rewrite Hlat, Hlon; eauto).
    destruct (decide (readyState w = 1)) as [Hr|Hr].
    + destruct write_ok.
      * by destruct (post_api_location_saved body w Hv Hr) as (u & _ & ->).
      * by rewrite post_api_location_write_error.
    + by rewrite post_api_location_offline.
  - rewrite post_api_location_invalid; [done|].
    intros (_ & _ & [? ?]); congruence.
  - rewrite post_api_location_invalid; [done|].
    intros (_ & [? ?] & _); congruence.
  - rewrite post_api_location_invalid; [done|].
    intros (? & _); congruence.
Qed.

Lemma on_send_location_sockets (write_ok : bool) (loc : option position_input)
    (w : world) :
  sockets (world_of (on_send_location write_ok loc w)) = sockets w
  ∧ presence_of (effects_of (on_send_location write_ok loc w)) = [].
Proof.
  destruct (from_option (λ l, truthy (in_userId l)) false loc) eqn:Hu.
  - destruct loc as [l|]; [simpl in Hu|done].
    rewrite on_send_location_subject by done.
    unfold world_of, effects_of; simpl.
    by destruct (send_location_document write_ok l w).
  - by rewrite on_send_location_no_subject.
Qed.











End one_socket.



(** Binding a subject does not change who is in the admin room. *)
Lemma admins_set_userId (id : sid) (u : string) (w : world) :
  admins (set_sockets (alter (λ s, mkSocket (Some u) (s_rooms s)) id (sockets w)) w)
  = admins w.
Proof.
  apply set_eq. intros j. rewrite !elem_of_admins. simpl.
  destruct (decide (id = j)) as [->|Hne].
  - rewrite lookup_alter_eq. destruct (sockets w !! j) as [s|]; simpl.
    + split; intros (s' & Hs' & Hin); simplify_eq; simpl in *; eauto.
    + split; intros (s' & Hs' & _); done.
  - by rewrite lookup_alter_ne.
Qed.



(** ** Read queries *)

Global Instance newer_first_total : Total newer_first.
Proof. intros a b. unfold newer_first. lia. Qed.
Global Instance newer_first_trans : Transitive newer_first.
Proof. intros a b c. unfold newer_first. lia. Qed.
Global Instance last_seen_first_total : Total last_seen_first.
Proof. intros a b. unfold last_seen_first. lia. Qed.
Global Instance last_seen_first_trans : Transitive last_seen_first.
Proof. intros a b c. unfold last_seen_first. lia. Qed.

Lemma sort_desc_sorted (l : list Location) : StronglySorted newer_first (sort_desc l).
Proof. apply StronglySorted_merge_sort; apply _. Qed.

Lemma sort_desc_perm (l : list Location) : sort_desc l ≡ₚ l.
Proof. apply merge_sort_Permutation. Qed.

Lemma get_api_locations_ok (u : string) (q : option string) (w : world) :
  readyState w = 1 →
  get_api_locations true u q w
  = (inr (mkResponse 200
            (JLocations (limit (or_default (parseInt q) 50)
                           (sort_desc (find u (collection w)))))), w, []).
Proof.
  intros Hr. unfold get_api_locations, try_catch, bind, connected, get, ret. simpl.
  rewrite Hr. reflexivity.
Qed.

Lemma get_api_admin_users_ok (w : world) :
  readyState w = 1 →
  get_api_admin_users true w
  = (inr (mkResponse 200 (JUsers (aggregate (collection w)))), w, []).
Proof.
  intros Hr. unfold get_api_admin_users, try_catch, bind, connected, get, ret. simpl.
  rewrite Hr. reflexivity.
Qed.


(** C8. The aggregation answers an empty store with an empty list; and when
    the store is not connected or the read fails, the aggregation and the
    history query both answer 200 with an empty list. *)
Theorem read_queries_degrade (read_ok : bool) (w : world) :
  (collection w = [] →
     get_api_admin_users read_ok w = (inr (mkResponse 200 (JUsers [])), w, []))
  ∧ (readyState w ≠ 1 ∨ read_ok = false →
     get_api_admin_users read_ok w = (inr (mkResponse 200 (JUsers [])), w, [])
     ∧ ∀ u q,
         get_api_locations read_ok u q w
         = (inr (mkResponse 200 (JLocations [])), w, [])).
Proof.
  split.
  - intros Hc. unfold get_api_admin_users, try_catch, bind, connected, get, ret,
      await_read. simpl.
    destruct (readyState w =? 1); simpl; [|done].
    destruct read_ok; simpl; [|done]. by rewrite Hc.
  - intros Hbad.
    unfold get_api_admin_users, get_api_locations, try_catch, bind, connected,
      get, ret, await_read. simpl.
    destruct (Z.eqb_spec (readyState w) 1) as [Hr|Hr]; simpl; [|done].
    destruct Hbad as [|Hk]; [done|]. subst read_ok. done.
Qed.

Lemma read_queries_degrade_witness :
  get_api_admin_users true w_down = (inr (mkResponse 200 (JUsers [])), w_down, [])
  ∧ ∀ u q,
      get_api_locations true u q w_down
      = (inr (mkResponse 200 (JLocations [])), w_down, []).
Proof.
  destruct (read_queries_degrade true w_down) as [_ H].
  apply H. left. simpl. lia.
Defined.

(** With [limit=-2] the query is not the default query: MongoDB reads the
    limit as 2. *)
Lemma negative_limit_result :
  result_of (get_api_locations true "ana" (Some "-2"%string) three_reports)
  = inr (mkResponse 200
           (JLocations [mkLocation "ana" 20 (-98) 0 3000;
                        mkLocation "ana" 21 (-97) 0 2000]))
  ∧ result_of (get_api_locations true "ana" None three_reports)
    = inr (mkResponse 200
             (JLocations [mkLocation "ana" 20 (-98) 0 3000;
                          mkLocation "ana" 21 (-97) 0 2000;
                          mkLocation "ana" 19 (-99) 0 1000])).
Proof. split; vm_compute; reflexivity. Qed.




(** ** The aggregation *)

Lemma find_snoc (u : string) (docs : list Location) (d : Location) :
  find u (docs ++ [d]) = find u docs ++ (if decide (userId d = u) then [d] else []).
Proof.
  unfold find. by rewrite filter_app.
Qed.

Lemma group_add_ids (d : Location) (gs : list group) :
  g_id <$> group_add d gs
  = if decide (userId d ∈ g_id <$> gs) then g_id <$> gs
    else (g_id <$> gs) ++ [userId d].
Proof.
  induction gs as [|g gs IH]; [done|].
  cbn [group_add]. rewrite fmap_cons.
  destruct (decide (g_id g = userId d)) as [Heq|Hne].
  - rewrite fmap_cons. cbn [g_id].
    rewrite decide_True; [done | rewrite Heq; apply list_elem_of_here].
  - rewrite fmap_cons, IH. destruct (decide (userId d ∈ g_id <$> gs)) as [Hin|Hin].
    + rewrite decide_True; [done | by apply list_elem_of_further].
    + rewrite decide_False; [done|].
      intros [?|?]%elem_of_cons; congruence.
Qed.

Lemma summarises_other (docs : list Location) (d : Location) (g : group) :
  g_id g ≠ userId d → summarises docs g → summarises (docs ++ [d]) g.
Proof.
  intros Hne Hg. unfold summarises. rewrite find_snoc.
  rewrite decide_False by congruence. by rewrite app_nil_r.
Qed.

Lemma summarises_update (docs : list Location) (d : Location) (g : group) :
  g_id g = userId d → summarises docs g →
  summarises (docs ++ [d])
    (mkGroup (g_id g) (lastLocation g) (S (locationCount g))
       (Z.min (firstSeen g) (timestamp d)) (Z.max (lastSeen g) (timestamp d))).
Proof.
  intros Heq (Hh & Hc & Hb & (d1 & Hd1 & Ht1) & (d2 & Hd2 & Ht2)).
  unfold summarises. simpl. rewrite find_snoc, decide_True by done.
  split; [|split; [|split; [|split]]].
  - apply head_Some in Hh as [l' Hl']. by rewrite Hl'.
  - rewrite length_app. simpl. lia.
  - intros x [Hin|Hin%list_elem_of_singleton]%elem_of_app.
    + apply Hb in Hin. lia.
    + subst. lia.
  - destruct (Z.min_spec (firstSeen g) (timestamp d)) as [[_ ->]|[_ ->]].
    + exists d1. split; [apply elem_of_app; by left | done].
    + exists d. split; [apply elem_of_app; right; apply list_elem_of_here | done].
  - destruct (Z.max_spec (lastSeen g) (timestamp d)) as [[_ ->]|[_ ->]].
    + exists d. split; [apply elem_of_app; right; apply list_elem_of_here | done].
    + exists d2. split; [apply elem_of_app; by left | done].
Qed.

Lemma summarises_new (docs : list Location) (d : Location) :
  find (userId d) docs = [] →
  summarises (docs ++ [d]) (mkGroup (userId d) d 1 (timestamp d) (timestamp d)).
Proof.
  intros Hnone. unfold summarises. simpl.
  rewrite find_snoc, Hnone, decide_True by done. simpl.
  split; [done|]. split; [done|]. split; [|split].
  - intros x ->%list_elem_of_singleton. lia.
  - exists d. split; [apply list_elem_of_here | done].
  - exists d. split; [apply list_elem_of_here | done].
Qed.

Lemma group_add_summarises (docs : list Location) (d : Location) (gs : list group) :
  NoDup (g_id <$> gs) →
  Forall (summarises docs) gs →
  (userId d ∉ g_id <$> gs → find (userId d) docs = []) →
  Forall (summarises (docs ++ [d])) (group_add d gs).
Proof.
  induction gs as [|g gs IH]; intros Hnd Hall Hnew; simpl.
  - constructor; [|constructor]. apply summarises_new, Hnew, not_elem_of_nil.
  - apply NoDup_cons in Hnd as [Hg Hnd].
    apply Forall_cons in Hall as [Hsg Hall].
    destruct (decide (g_id g = userId d)) as [Heq|Hne].
    + constructor; [by apply summarises_update|].
      apply Forall_forall. intros g' Hg'.
      apply summarises_other; [|by eapply Forall_forall in Hall].
      intros Heq'. apply Hg. rewrite Heq, <- Heq'.
      by apply list_elem_of_fmap_2.
    + constructor; [by apply summarises_other|].
      apply IH; [done | done |].
      intros Hnot. apply Hnew. rewrite fmap_cons.
      intros [?|?]%elem_of_cons; [congruence | done].
Qed.

Lemma group_by_userId_snoc (docs : list Location) (d : Location) :
  group_by_userId (docs ++ [d]) = group_add d (group_by_userId docs).
Proof. unfold group_by_userId. by rewrite fold_left_app. Qed.

(** The [$group] stage: one group per subject, each the summary of the
    documents of its subject, in the order in which they came in. *)
Lemma group_by_userId_spec (docs : list Location) :
  NoDup (g_id <$> group_by_userId docs)
  ∧ Forall (summarises docs) (group_by_userId docs)
  ∧ ∀ u, u ∈ g_id <$> group_by_userId docs ↔ ∃ d, d ∈ docs ∧ userId d = u.
Proof.
  induction docs as [|d docs (Hnd & Hall & Hids)] using rev_ind.
  - repeat split; try constructor.
    + intros H. by apply elem_of_nil in H.
    + intros (d & H & _). by apply elem_of_nil in H.
  - rewrite group_by_userId_snoc.
    assert (userId d ∉ g_id <$> group_by_userId docs → find (userId d) docs = [])
      as Hnew.
    { intros Hnot. apply elem_of_nil_inv. intros x [Hx Hin]%list_elem_of_filter.
      apply Hnot, Hids. eauto. }
    split; [|split].
    + rewrite group_add_ids. case_decide; [done|].
      apply NoDup_app. split; [done|]. split; [|apply NoDup_singleton].
      intros x Hx ->%list_elem_of_singleton. done.
    + by apply group_add_summarises.
    + intros u. rewrite group_add_ids. setoid_rewrite elem_of_app.
      setoid_rewrite list_elem_of_singleton.
      case_decide as Hin.
      * rewrite Hids. split.
        -- intros (x & Hx & Hu). eauto.
        -- intros (x & [Hx| ->] & Hu); [eauto|]. subst u. by apply Hids.
      * rewrite elem_of_app, list_elem_of_singleton, Hids. split.
        -- intros [(x & Hx & Hu)| ->]; eauto.
        -- intros (x & [Hx| ->] & Hu); eauto.
Qed.

(** In a list sorted newest first, the first document of a subject is one
    of its newest. *)
Lemma head_find_newest (u : string) (l : list Location) (d : Location) :
  StronglySorted newer_first l → head (find u l) = Some d →
  ∀ d', d' ∈ find u l → timestamp d' ≤ timestamp d.
Proof.
  induction 1 as [|x l Hs IH Hx]; intros Hh d' Hd'; [by apply elem_of_nil in Hd'|].
  unfold find in *. rewrite filter_cons in Hh, Hd'.
  destruct (decide (userId x = u)) as [Hu|Hu]; [|by apply IH].
  simpl in Hh. simplify_eq.
  apply elem_of_cons in Hd' as [->|Hin]; [lia|].
  apply list_elem_of_filter in Hin as [_ Hin].
  rewrite Forall_forall in Hx. by apply Hx.
Qed.

Lemma find_sort_desc_length (u : string) (c : list Location) :
  length (find u (sort_desc c)) = length (find u c).
Proof. apply Permutation_length. unfold find. by rewrite sort_desc_perm. Qed.

Lemma elem_of_find_sort_desc (u : string) (c : list Location) (d : Location) :
  d ∈ find u (sort_desc c) ↔ d ∈ c ∧ userId d = u.
Proof.
  unfold find. rewrite list_elem_of_filter, sort_desc_perm. naive_solver.
Qed.

Lemma project_entry (c : list Location) (g : group) :
  summarises (sort_desc c) g → entry_of c (project g).
Proof.
  intros (Hh & Hc & Hb & (d1 & Hd1 & Ht1) & (d2 & Hd2 & Ht2)).
  pose proof (head_find_newest _ _ _ (sort_desc_sorted c) Hh) as Hmax.
  assert (lastLocation g ∈ find (g_id g) (sort_desc c)) as Hl.
  { apply head_Some in Hh as [l' ->]. apply list_elem_of_here. }
  unfold entry_of. simpl. split; [|split; [|split]].
  - exists (lastLocation g).
    destruct (proj1 (elem_of_find_sort_desc _ _ _) Hl) as [Hin Hu].
    split; [done|]. split; [done|]. split; [|done].
    pose proof (Hb _ Hl). pose proof (Hmax _ Hd2). lia.
  - exists d1. apply elem_of_find_sort_desc in Hd1 as [Hin Hu]. done.
  - intros d Hin Hu. apply Hb, elem_of_find_sort_desc. done.
  - rewrite Hc. apply find_sort_desc_length.
Qed.

Lemma aggregate_perm (c : list Location) :
  aggregate c ≡ₚ project <$> group_by_userId (sort_desc c).
Proof. apply merge_sort_Permutation. Qed.

Lemma aggregate_ids (c : list Location) :
  uv_userId <$> aggregate c ≡ₚ g_id <$> group_by_userId (sort_desc c).
Proof. rewrite aggregate_perm, <- list_fmap_compose. done. Qed.

(** The aggregation, for any collection. *)
Lemma aggregate_spec (c : list Location) :
  NoDup (uv_userId <$> aggregate c)
  ∧ (∀ u, u ∈ uv_userId <$> aggregate c ↔ ∃ d, d ∈ c ∧ userId d = u)
  ∧ (∀ e, e ∈ aggregate c → entry_of c e)
  ∧ StronglySorted last_seen_first (aggregate c).
Proof.
  destruct (group_by_userId_spec (sort_desc c)) as (Hnd & Hall & Hids).
  split; [|split; [|split]].
  - by rewrite aggregate_ids.
  - intros u. rewrite aggregate_ids, Hids.
    setoid_rewrite sort_desc_perm. done.
  - intros e. rewrite aggregate_perm.
    intros (g & -> & Hg)%list_elem_of_fmap.
    apply project_entry. by eapply Forall_forall in Hall.
  - apply StronglySorted_merge_sort; apply _.
Qed.

(** Two subjects, the first with three reports and the second with one
    older report. *)
Lemma aggregate_two_subjects (c : list Location) (a b : string) (t1 t3 : Z) :
  a ≠ b →
  (∀ d, d ∈ c → userId d = a ∨ userId d = b) →
  length (filter (λ d, userId d = a) c) = 3%nat →
  length (filter (λ d, userId d = b) c) = 1%nat →
  (∃ d, d ∈ c ∧ userId d = a ∧ timestamp d = t3) →
  (∀ d, d ∈ c → userId d = a → timestamp d ≤ t3) →
  (∀ d, d ∈ c → userId d = b → timestamp d = t1) →
  t1 < t3 →
  ∃ ea eb, aggregate c = [ea; eb]
    ∧ uv_userId ea = a ∧ uv_locationCount ea = 3%nat ∧ uv_lastSeen ea = t3
    ∧ uv_userId eb = b ∧ uv_locationCount eb = 1%nat ∧ uv_lastSeen eb = t1.
Proof.
  intros Hab Honly Hna Hnb (da & Hda & Hua & Hta) Hmax Hb Hlt.
  destruct (aggregate_spec c) as (Hnd & Hids & Hent & Hsorted).
  assert (∃ db, db ∈ c ∧ userId db = b) as (db & Hdb & Hub).
  { destruct (filter (λ d, userId d = b) c) as [|db l] eqn:E; [done|].
    assert (db ∈ filter (λ d, userId d = b) c) as Hin
      by (rewrite E; apply list_elem_of_here).
    apply list_elem_of_filter in Hin as [? ?]. by exists db. }
  assert (∀ e, e ∈ aggregate c → uv_userId e = a →
               uv_locationCount e = 3%nat ∧ uv_lastSeen e = t3) as Ha.
  { intros e He Hu. destruct (Hent e He) as ((d & Hd & Hud & Htd & _) & _ & Hbd & Hc).
    rewrite Hu in *. split; [congruence|].
    pose proof (Hmax d Hd Hud). pose proof (Hbd da Hda Hua). lia. }
  assert (∀ e, e ∈ aggregate c → uv_userId e = b →
               uv_locationCount e = 1%nat ∧ uv_lastSeen e = t1) as Hb'.
  { intros e He Hu. destruct (Hent e He) as ((d & Hd & Hud & Htd & _) & _ & _ & Hc).
    rewrite Hu in *. split; [congruence|]. rewrite <- Htd. by apply Hb. }
  assert (uv_userId <$> aggregate c ≡ₚ [a; b]) as Hperm.
  { apply NoDup_Permutation; [done | |].
    - apply NoDup_cons. split; [|apply NoDup_singleton].
      by intros ->%list_elem_of_singleton.
    - intros x. rewrite Hids, elem_of_cons, list_elem_of_singleton. split.
      + intros (d & Hd & <-). destruct (Honly d Hd); [by left | by right].
      + intros [->| ->]; eauto. }
  destruct (aggregate c) as [|e1 [|e2 [|e3 l]]] eqn:E;
    try (apply Permutation_length in Hperm; simpl in Hperm; lia).
  assert (e1 ∈ [e1; e2]) as H1 by apply list_elem_of_here.
  assert (e2 ∈ [e1; e2]) as H2 by apply list_elem_of_further, list_elem_of_here.
  apply StronglySorted_inv in Hsorted as [_ Hle].
  apply Forall_cons in Hle as [Hle _]. unfold last_seen_first in Hle.
  rewrite !fmap_cons, fmap_nil in Hperm.
  assert ((uv_userId e1 = a ∧ uv_userId e2 = b) ∨ (uv_userId e1 = b ∧ uv_userId e2 = a))
    as [[Hu1 Hu2]|[Hu1 Hu2]].
  { assert (a ∈ [uv_userId e1; uv_userId e2]) as Hina
      by (rewrite Hperm; apply list_elem_of_here).
    assert (b ∈ [uv_userId e1; uv_userId e2]) as Hinb
      by (rewrite Hperm; apply list_elem_of_further, list_elem_of_here).
    rewrite elem_of_cons, list_elem_of_singleton in Hina, Hinb.
    destruct Hina as [Ha1|Ha2], Hinb as [Hb1|Hb2]; try congruence; [by left | by right]. }
  - exists e1, e2. destruct (Ha e1 H1 Hu1), (Hb' e2 H2 Hu2). done.
  - destruct (Hb' e1 H1 Hu1) as [_ ?], (Ha e2 H2 Hu2) as [_ ?]. lia.
Qed.

(** C6. The aggregation has exactly one entry for every subject of the
    collection; the entry carries the position of a report of that subject
    with the greatest timestamp, the least and the greatest timestamp of the
    subject as [firstSeen] and [lastSeen], and the number of its reports; the
    entries come with [lastSeen] descending. For a subject with three reports,
    the last at [t3], and a second subject with one report at [t1 < t3], the
    answer has two entries, the first subject's first, counting 3 and 1. *)
Theorem latest_per_subject (c : list Location) :
  NoDup (uv_userId <$> aggregate c)
  ∧ (∀ u, u ∈ uv_userId <$> aggregate c ↔ ∃ d, d ∈ c ∧ userId d = u)
  ∧ (∀ e, e ∈ aggregate c →
       (∃ d, d ∈ c ∧ userId d = uv_userId e ∧ timestamp d = uv_lastSeen e
             ∧ latitude d = uv_latitude e ∧ longitude d = uv_longitude e
             ∧ accuracy d = uv_accuracy e)
       ∧ (∃ d, d ∈ c ∧ userId d = uv_userId e ∧ timestamp d = uv_firstSeen e)
       ∧ (∀ d, d ∈ c → userId d = uv_userId e →
            uv_firstSeen e ≤ timestamp d ≤ uv_lastSeen e)
       ∧ uv_locationCount e = length (filter (λ d, userId d = uv_userId e) c))
  ∧ StronglySorted last_seen_first (aggregate c)
  ∧ (∀ a b t1 t3,
       a ≠ b →
       (∀ d, d ∈ c → userId d = a ∨ userId d = b) →
       length (filter (λ d, userId d = a) c) = 3%nat →
       length (filter (λ d, userId d = b) c) = 1%nat →
       (∃ d, d ∈ c ∧ userId d = a ∧ timestamp d = t3) →
       (∀ d, d ∈ c → userId d = a → timestamp d ≤ t3) →
       (∀ d, d ∈ c → userId d = b → timestamp d = t1) →
       t1 < t3 →
       ∃ ea eb, aggregate c = [ea; eb]
         ∧ uv_userId ea = a ∧ uv_locationCount ea = 3%nat ∧ uv_lastSeen ea = t3
         ∧ uv_userId eb = b ∧ uv_locationCount eb = 1%nat ∧ uv_lastSeen eb = t1)
  ∧ (∀ w, readyState w = 1 →
       get_api_admin_users true w
       = (inr (mkResponse 200 (JUsers (aggregate (collection w)))), w, [])).
Proof.
  destruct (aggregate_spec c) as (Hnd & Hids & Hent & Hsorted).
  split; [done|]. split; [done|]. split; [exact Hent|]. split; [done|].
  split; [|apply get_api_admin_users_ok].
  intros a b t1 t3. apply aggregate_two_subjects.
Qed.

Lemma latest_per_subject_witness :
  ∃ ea eb, aggregate two_subjects = [ea; eb]
    ∧ uv_userId ea = "ana"%string ∧ uv_locationCount ea = 3%nat ∧ uv_lastSeen ea = 3000
    ∧ uv_userId eb = "bea"%string ∧ uv_locationCount eb = 1%nat ∧ uv_lastSeen eb = 500.
Proof.
  destruct (latest_per_subject two_subjects) as (_ & _ & _ & _ & H & _).
  apply H.
  - discriminate.
  - intros d Hd. unfold two_subjects in Hd.
    repeat (apply elem_of_cons in Hd as [->|Hd]); auto.
    by apply elem_of_nil in Hd.
  - reflexivity.
  - reflexivity.
  - exists (mkLocation "ana" 20 (-98) 0 3000). split; [|done].
    unfold two_subjects. do 2 apply list_elem_of_further. apply list_elem_of_here.
  - intros d Hd. unfold two_subjects in Hd.
    repeat (apply elem_of_cons in Hd as [->|Hd]); simpl; intros; try lia; try discriminate.
    by apply elem_of_nil in Hd.
  - intros d Hd. unfold two_subjects in Hd.
    repeat (apply elem_of_cons in Hd as [->|Hd]); simpl; intros; try done.
    by apply elem_of_nil in Hd.
  - lia.
Defined.

(** * Further properties *)

(** ** The store under whole runs *)

(** The four ways [POST /api/location] can go. *)
Lemma post_api_location_cases (write_ok : bool) (body : position_input) (w : world) :
  post_api_location write_ok body w
    = (inr (mkResponse 400 (JError "Datos incompletos")), w, [])
  ∨ post_api_location write_ok body w
    = (inr (mkResponse 500 (JError "Error interno del servidor")), w, [])
  ∨ (readyState w ≠ 1
     ∧ post_api_location write_ok body w
       = (inr (mkResponse 200 (JProcessed false)), w,
          [Emit None "locationUpdate" (update_payload body (now w) None)
             (dom (sockets w));
           Emit (Some ADMIN_ROOM) "adminLocationUpdate"
             (update_payload body (now w) (Some "user_update"%string)) (admins w)]))
  ∨ (∃ a u,
       post_api_location write_ok body w
       = (inr (mkResponse 200 (JProcessed true)),
          set_collection (collection w ++ [document_of body (String a u) (now w)]) w,
          [Insert (document_of body (String a u) (now w));
           Emit None "locationUpdate" (update_payload body (now w) None)
             (dom (sockets w));
           Emit (Some ADMIN_ROOM) "adminLocationUpdate"
             (update_payload body (now w) (Some "user_update"%string)) (admins w)])).
Proof.
  destruct (truthy (in_userId body)) eqn:Hu;
    [destruct (in_latitude body) as [lat|] eqn:Hlat;
     [destruct (in_longitude body) as [lon|] eqn:Hlon|]|].
  - assert (valid_input body) as Hv by (unfold valid_input; rewrite Hlat, Hlon; eauto).
    destruct (decide (readyState w = 1)) as [Hr|Hr].
    + destruct write_ok.
      * destruct (post_api_location_saved body w Hv Hr) as (u & Hs & ->).
        destruct (truthy_toString _ Hu) as (a & u' & Hs' & _).
        rewrite Hs' in Hs. simplify_eq. right; right; right. eauto.
      * right; left. by apply post_api_location_write_error.
    + right; right; left. split; [done|]. by apply post_api_location_offline.
  - left. apply post_api_location_invalid. intros (_ & _ & [? ?]); congruence.
  - left. apply post_api_location_invalid. intros (_ & [? ?] & _); congruence.
  - left. apply post_api_location_invalid. intros (? & _); congruence.
Qed.

(** What one input does to the collection and to the clock: it writes at
    most one document, which then has a subject and the time of the clock. *)
Lemma step_store (i : input) (w : world) :
  collection (world_of (step i w)) = collection w ++ inserted (effects_of (step i w))
  ∧ Forall (λ d, userId d ≠ ""%string ∧ timestamp d = now w)
      (inserted (effects_of (step i w)))
  ∧ now (world_of (step i w)) = match i with Tick dt => now w + dt | _ => now w end.
Proof.
  destruct i as [j|j data|j ok loc|j|j|ok body|dt|rs].
  - unfold step, bind, get, world_of, effects_of. simpl.
    destruct (sockets w !! j); simpl; by rewrite app_nil_r.
  - unfold step, on_socket, on_register_user, bind, get, world_of, effects_of. simpl.
    destruct (sockets w !! j); simpl; [|by rewrite app_nil_r].
    destruct data as [[v]|]; simpl; [|by rewrite app_nil_r].
    destruct (truthy v) eqn:Hv; simpl; [|by rewrite app_nil_r].
    destruct (truthy_toString _ Hv) as (a & u & -> & _). simpl.
    by rewrite app_nil_r.
  - unfold step, on_socket, bind, get. simpl.
    destruct (sockets w !! j); [|unfold world_of, effects_of; simpl; by rewrite app_nil_r].
    destruct (from_option (λ l, truthy (in_userId l)) false loc) eqn:Hu.
    + destruct loc as [l|]; [simpl in Hu|done].
      rewrite on_send_location_subject by done.
      unfold world_of, effects_of, send_location_document. simpl.
      destruct ((readyState w =? 1) && ok); simpl; [|by rewrite app_nil_r].
      unfold validate. simpl.
      destruct (castString (in_userId l)) as [[|a u]|]; simpl; try by rewrite app_nil_r.
      destruct (in_latitude l), (in_longitude l); simpl; try by rewrite app_nil_r.
      split; [done|]. split; [|done]. by constructor.
    + rewrite on_send_location_no_subject by done.
      unfold world_of, effects_of. simpl. by rewrite app_nil_r.
  - unfold step, on_socket, on_join_admin_room, socket_join, bind, get, world_of,
      effects_of. simpl.
    destruct (sockets w !! j); simpl; by rewrite app_nil_r.
  - unfold step, on_disconnect, bind, get, world_of, effects_of. simpl.
    destruct (sockets w !! j) as [s|]; simpl; [|by rewrite app_nil_r].
    destruct (truthy (JStr <$> s_userId s)); simpl; by rewrite app_nil_r.
  - unfold step, bind.
    destruct (post_api_location_cases ok body w)
      as [->|[->|[[_ ->]|(a & u & ->)]]]; unfold world_of, effects_of; simpl;
      try by rewrite app_nil_r.
    split; [done|]. split; [|done]. by constructor.
  - unfold step, bind, get, world_of, effects_of. simpl. by rewrite app_nil_r.
  - unfold step, bind, get, world_of, effects_of. simpl. by rewrite app_nil_r.
Qed.

Lemma inserted_app (o1 o2 : list effect) :
  inserted (o1 ++ o2) = inserted o1 ++ inserted o2.
Proof. unfold inserted. apply omap_app. Qed.

(** X1. The collection only grows, and by exactly the documents the run
    reports as written, in that order; every document written has a subject,
    and nothing that was stored is changed or removed. *)
Theorem collection_is_append_only (tr : list input) (w : world) :
  collection (exec tr w).1 = collection w ++ inserted (all_effects (exec tr w).2)
  ∧ Forall (λ d, userId d ≠ ""%string) (inserted (all_effects (exec tr w).2)).
Proof.
  revert w. induction tr as [|i tr IH]; intros w; simpl.
  - by rewrite app_nil_r.
  - destruct (step_store i w) as (Hc & Hd & _).
    destruct (IH (world_of (step i w))) as [IHc IHd].
    unfold all_effects in *. simpl. rewrite inserted_app. split.
    + rewrite IHc, Hc. by rewrite app_assoc.
    + apply Forall_app. split; [|done].
      eapply Forall_impl; [exact Hd|]. by intros d [? _].
Qed.

Global Instance older_first_total : Total older_first.
Proof. intros a b. unfold older_first. lia. Qed.
Global Instance older_first_trans : Transitive older_first.
Proof. intros a b c. unfold older_first. lia. Qed.




(** ** Who receives what, under whole runs *)

Lemma admins_delete (j : sid) (w : world) (k : sid) :
  k ∈ admins (set_sockets (delete j (sockets w)) w) ↔ k ∈ admins w ∧ k ≠ j.
Proof.
  rewrite !elem_of_admins. simpl. destruct (decide (j = k)) as [->|Hne].
  - rewrite lookup_delete_eq. split; [by intros (? & ? & _) | by intros [_ ?]].
  - rewrite lookup_delete_ne by done. naive_solver.
Qed.

(** Every emission of the server is one of two kinds: [locationUpdate], to
    every socket connected at that input, or [adminLocationUpdate] with a
    [type], to the sockets that are in the admin room at that input and are
    not the one that is disconnecting. *)
Lemma step_emissions (i : input) (w : world) (room : option string)
    (ev : string) (p : payload) (rs : gset sid) :
  Emit room ev p rs ∈ effects_of (step i w) →
  (room = None ∧ ev = "locationUpdate"%string ∧ p_type p = None
   ∧ rs = dom (sockets w))
  ∨ (room = Some ADMIN_ROOM ∧ ev = "adminLocationUpdate"%string
     ∧ is_Some (p_type p)
     ∧ ∀ k, k ∈ rs ↔ k ∈ admins w ∧ is_disconnect k i = false).
Proof.
  assert (∀ k, k ∈ admins w ↔ k ∈ admins w ∧ false = false) as Hsame by naive_solver.
  destruct i as [j|j data|j ok loc|j|j|ok body|dt|rs'].
  - unfold step, bind, get, effects_of. simpl.
    destruct (sockets w !! j); simpl; by intros ?%elem_of_nil.
  - unfold step, on_socket, on_register_user, bind, get, effects_of. simpl.
    destruct (sockets w !! j); simpl; [|by intros ?%elem_of_nil].
    destruct data as [[v]|]; simpl; [|by intros ?%elem_of_nil].
    destruct (truthy v) eqn:Hv; simpl; [|by intros ?%elem_of_nil].
    destruct (truthy_toString _ Hv) as (a & u & -> & _). simpl.
    intros Hin%list_elem_of_singleton. simplify_eq. right.
    split; [done|]. split; [done|]. split; [by eexists|].
    intros k. rewrite <- (admins_set_userId j (String a u) w).
    unfold admins. simpl. naive_solver.
  - unfold step, on_socket, bind, get. simpl.
    destruct (sockets w !! j);
      [|unfold effects_of; simpl; by intros ?%elem_of_nil].
    destruct (from_option (λ l, truthy (in_userId l)) false loc) eqn:Hu.
    + destruct loc as [l|]; [simpl in Hu|done].
      rewrite on_send_location_subject by done. unfold effects_of. simpl.
      intros [Hin|[Hin|Hin]%elem_of_cons]%elem_of_cons.
      * simplify_eq. right. split; [done|]. split; [done|]. split; [by eexists|].
        apply Hsame.
      * simplify_eq. by left.
      * by destruct (send_location_document ok l w);
          [apply list_elem_of_singleton in Hin | apply elem_of_nil in Hin].
    + rewrite on_send_location_no_subject by done.
      unfold effects_of. simpl. by intros ?%elem_of_nil.
  - unfold step, on_socket, on_join_admin_room, socket_join, bind, get, effects_of.
    simpl. destruct (sockets w !! j); simpl; by intros ?%elem_of_nil.
  - unfold step, on_disconnect, bind, get, effects_of. simpl.
    destruct (sockets w !! j) as [s|]; simpl; [|by intros ?%elem_of_nil].
    destruct (truthy (JStr <$> s_userId s)); simpl; [|by intros ?%elem_of_nil].
    intros Hin%list_elem_of_singleton. simplify_eq. right.
    split; [done|]. split; [done|]. split; [by eexists|].
    intros k. rewrite bool_decide_eq_false.
    pose proof (admins_delete j w k) as Hk. unfold admins in Hk at 1.
    simpl in Hk. rewrite Hk. naive_solver.
  - unfold step, bind.
    destruct (post_api_location_cases ok body w)
      as [->|[->|[[_ ->]|(a & u & ->)]]]; unfold effects_of; simpl.
    + by intros ?%elem_of_nil.
    + by intros ?%elem_of_nil.
    + intros [Hin|Hin%list_elem_of_singleton]%elem_of_cons; simplify_eq.
      * by left.
      * right. split; [done|]. split; [done|]. split; [by eexists|]. apply Hsame.
    + intros [Hin|[Hin|Hin%list_elem_of_singleton]%elem_of_cons]%elem_of_cons;
        simplify_eq.
      * by left.
      * right. split; [done|]. split; [done|]. split; [by eexists|]. apply Hsame.
  - unfold step, bind, get, effects_of. simpl. by intros ?%elem_of_nil.
  - unfold step, bind, get, effects_of. simpl. by intros ?%elem_of_nil.
Qed.

(** What one input does to the entry of socket [k] in the socket table. *)
Lemma step_socket (i : input) (w : world) (k : sid) :
  match sockets w !! k with
  | None =>
      sockets (world_of (step i w)) !! k
      = if is_connection k i then Some (mkSocket None ∅) else None
  | Some s =>
      if is_disconnect k i then sockets (world_of (step i w)) !! k = None
      else ∃ s', sockets (world_of (step i w)) !! k = Some s'
             ∧ s_rooms s' = if is_join k i then {[ADMIN_ROOM]} ∪ s_rooms s
                            else s_rooms s
  end.
Proof.
  destruct i as [j|j data|j ok loc|j|j|ok body|dt|rs]; simpl.
  - unfold bind, get, world_of. simpl.
    destruct (decide (j = k)) as [->|Hne].
    + rewrite bool_decide_true by done.
      destruct (sockets w !! k) as [s|] eqn:Hk; simpl.
      * rewrite Hk. eauto.
      * by rewrite lookup_insert_eq.
    + rewrite bool_decide_false by done.
      destruct (sockets w !! j); simpl.
      * destruct (sockets w !! k); eauto.
      * rewrite lookup_insert_ne by done. destruct (sockets w !! k); eauto.
  - assert (∃ f, sockets (world_of (on_socket j (on_register_user j data) w))
                 = sockets w
               ∨ sockets (world_of (on_socket j (on_register_user j data) w))
                 = alter (λ s, mkSocket (f s) (s_rooms s)) j (sockets w))
      as (f & [->| ->]).
    { unfold on_socket, on_register_user, bind, get, world_of. simpl.
      destruct (sockets w !! j); simpl; [|exists (λ _, None); by left].
      destruct data as [[v]|]; simpl; [|exists (λ _, None); by left].
      destruct (truthy v) eqn:Hv; simpl; [|exists (λ _, None); by left].
      destruct (truthy_toString _ Hv) as (a & u & -> & _). simpl.
      exists (λ _, Some (String a u)). by right. }
    + destruct (sockets w !! k); eauto.
    + destruct (decide (j = k)) as [->|Hne].
      * rewrite lookup_alter_eq. destruct (sockets w !! k); simpl; eauto.
      * rewrite lookup_alter_ne by done. destruct (sockets w !! k); eauto.
  - assert (sockets (world_of (on_socket j (on_send_location ok loc) w)) = sockets w)
      as ->.
    { unfold on_socket, bind, get. simpl.
      destruct (sockets w !! j); [|done].
      destruct (on_send_location_sockets ok loc w) as [Hw _].
      destruct (on_send_location ok loc w) as [[r w'] out]. exact Hw. }
    destruct (sockets w !! k); eauto.
  - unfold on_socket, on_join_admin_room, socket_join, bind, get, world_of. simpl.
    destruct (decide (j = k)) as [->|Hne].
    + rewrite bool_decide_true by done.
      destruct (sockets w !! k) as [s|] eqn:Hk; simpl; [|by rewrite Hk].
      rewrite lookup_alter_eq, Hk. simpl. eauto.
    + rewrite bool_decide_false by done.
      destruct (sockets w !! j); simpl.
      * rewrite lookup_alter_ne by done. destruct (sockets w !! k); eauto.
      * destruct (sockets w !! k); eauto.
  - unfold on_disconnect, bind, get, world_of. simpl.
    destruct (decide (j = k)) as [->|Hne].
    + rewrite bool_decide_true by done.
      destruct (sockets w !! k) as [s|] eqn:Hk; simpl; [|by rewrite Hk].
      destruct (truthy (JStr <$> s_userId s)); simpl; by rewrite lookup_delete_eq.
    + rewrite bool_decide_false by done.
      destruct (sockets w !! j) as [sj|]; simpl.
      * destruct (truthy (JStr <$> s_userId sj)); simpl;
          rewrite lookup_delete_ne by done; destruct (sockets w !! k); eauto.
      * destruct (sockets w !! k); eauto.
  - pose proof (post_api_location_sockets ok body w) as Hw.
    unfold bind. destruct (post_api_location ok body w) as [[[e|r] w'] out];
      unfold world_of in *; simpl in *; rewrite Hw;
      destruct (sockets w !! k); eauto.
  - unfold bind, get, world_of. simpl. destruct (sockets w !! k); eauto.
  - unfold bind, get, world_of. simpl. destruct (sockets w !! k); eauto.
Qed.

Lemma step_keeps_member (i : input) (w : world) (k : sid) :
  k ∈ admins w → is_disconnect k i = false → k ∈ admins (world_of (step i w)).
Proof.
  rewrite !elem_of_admins. intros (s & Hs & Hin) Hd.
  pose proof (step_socket i w k) as H. rewrite Hs, Hd in H.
  destruct H as (s' & Hs' & Hr). exists s'. split; [done|].
  rewrite Hr. destruct (is_join k i); set_solver.
Qed.


Lemma elem_of_inbox (id : sid) (out : list effect) (m : string * payload) :
  m ∈ inbox id out ↔ ∃ room rs, Emit room m.1 m.2 rs ∈ out ∧ id ∈ rs.
Proof.
  unfold inbox. rewrite list_elem_of_omap. split.
  - intros ([room ev p rs|d] & Hin & Hm); [|done].
    destruct (decide (id ∈ rs)); simplify_eq. simpl. eauto.
  - intros (room & rs & Hin & Hid). exists (Emit room m.1 m.2 rs).
    split; [done|]. rewrite decide_True by done. by destruct m.
Qed.

Lemma exec_cons_world (i : input) (tr : list input) (w : world) :
  (exec (i :: tr) w).1 = (exec tr (world_of (step i w))).1.
Proof. done. Qed.

Lemma exec_cons_effects (i : input) (tr : list input) (w : world) :
  all_effects (exec (i :: tr) w).2
  = effects_of (step i w) ++ all_effects (exec tr (world_of (step i w))).2.
Proof. done. Qed.

(** X3. The admin room is not left before the disconnection: a connected
    socket that sends [join-admin-room] is in the room from then on, and is
    among the recipients of every [adminLocationUpdate] the server emits,
    until the socket disconnects. *)
Theorem admin_room_member_receives_all
    (id : sid) (tr : list input) (w : world) (s : socket) :
  sockets w !! id = Some s →
  forallb (λ i, negb (is_disconnect id i)) tr = true →
  id ∈ admins (exec (JoinAdminRoom id :: tr) w).1
  ∧ ∀ room ev p rs,
      Emit (Some room) ev p rs ∈ all_effects (exec (JoinAdminRoom id :: tr) w).2 →
      id ∈ rs.
Proof.
  intros Hs Hq.
  assert (∀ tr w, id ∈ admins w →
            forallb (λ i, negb (is_disconnect id i)) tr = true →
            id ∈ admins (exec tr w).1
            ∧ ∀ room ev p rs,
                Emit (Some room) ev p rs ∈ all_effects (exec tr w).2 → id ∈ rs)
    as Hrun.
  { clear. induction tr as [|i tr IH]; intros w Hin Hq.
    - split; [done|]. intros ???? H. by apply elem_of_nil in H.
    - cbn [forallb] in Hq. apply andb_true_iff in Hq as [Hi%negb_true_iff Hq].
      rewrite exec_cons_world.
      destruct (IH _ (step_keeps_member i w id Hin Hi) Hq) as [IH1 IH2].
      split; [done|]. intros room ev p rs. rewrite exec_cons_effects, elem_of_app.
      intros [He|He]; [|by eapply IH2].
      apply step_emissions in He as [(? & _)|(_ & _ & _ & Hrs)]; [done|].
      by apply Hrs. }
  assert (effects_of (step (JoinAdminRoom id) w) = []) as He0.
  { unfold step, on_socket, on_join_admin_room, socket_join, bind, get, effects_of.
    simpl. by rewrite Hs. }
  assert (id ∈ admins (world_of (step (JoinAdminRoom id) w))) as Hin.
  { apply elem_of_admins. pose proof (step_socket (JoinAdminRoom id) w id) as H.
    rewrite Hs in H. simpl in H. rewrite bool_decide_true in H by done.
    destruct H as (s' & Hs' & Hr). exists s'. split; [done|]. rewrite Hr. set_solver. }
  rewrite exec_cons_world. destruct (Hrun tr _ Hin Hq) as [H1 H2]. split; [done|].
  intros room ev p rs. rewrite exec_cons_effects, He0. apply H2.
Qed.

Lemma admin_room_member_receives_all_witness :
  1%nat ∈ admins
    (exec (JoinAdminRoom 1%nat
           :: [RegisterUser 2%nat (Some (mkRegister ana)); Disconnect 2%nat]) w_two).1.
Proof.
  destruct (admin_room_member_receives_all 1%nat
              [RegisterUser 2%nat (Some (mkRegister ana)); Disconnect 2%nat]
              w_two (mkSocket None ∅)) as [H _]; [reflexivity | reflexivity |].
  exact H.
Defined.



(** X5. Nothing is addressed to a socket that is not connected: from its
    disconnection (or before its connection) until it connects, a socket
    receives no event at all. *)
Theorem disconnected_socket_receives_nothing
    (id : sid) (tr : list input) (w : world) :
  sockets w !! id = None →
  forallb (λ i, negb (is_connection id i)) tr = true →
  sockets (exec tr w).1 !! id = None
  ∧ inbox id (all_effects (exec tr w).2) = [].
Proof.
  revert w. induction tr as [|i tr IH]; intros w Hs Hq.
  - done.
  - cbn [forallb] in Hq. apply andb_true_iff in Hq as [Hi%negb_true_iff Hq].
    pose proof (step_socket i w id) as Hs'. rewrite Hs, Hi in Hs'.
    rewrite exec_cons_world.
    destruct (IH _ Hs' Hq) as [IH1 IH2].
    split; [done|]. rewrite exec_cons_effects. unfold inbox in *.
    rewrite omap_app, IH2, app_nil_r.
    apply elem_of_nil_inv. intros m (room & rs & He & Hid)%elem_of_inbox.
    apply step_emissions in He as [(_ & _ & _ & ->)|(_ & _ & _ & Hrs)].
    + apply elem_of_dom in Hid as [? ?]. congruence.
    + apply Hrs in Hid as [(s & ? & _)%elem_of_admins _]. congruence.
Qed.

Lemma disconnected_socket_receives_nothing_witness :
  inbox 1%nat
    (all_effects
       (exec [Disconnect 1%nat; PostLocation true complete;
              RegisterUser 2%nat (Some (mkRegister ana))] w_two).2) = [].
Proof.
  assert (sockets (world_of (step (Disconnect 1%nat) w_two)) !! 1%nat = None) as Hs
    by (vm_compute; reflexivity).
  destruct (disconnected_socket_receives_nothing 1%nat
              [PostLocation true complete;
               RegisterUser 2%nat (Some (mkRegister ana))]
              (world_of (step (Disconnect 1%nat) w_two)) Hs eq_refl) as [_ H].
  rewrite exec_cons_effects. unfold inbox in *. rewrite omap_app.
  etransitivity; [|exact H]. reflexivity.
Defined.

(** ** The admin timeline and how the read queries fit together *)

Lemma sort_asc_sorted (l : list Location) : StronglySorted older_first (sort_asc l).
Proof. apply StronglySorted_merge_sort; apply _. Qed.

Lemma sort_asc_perm (l : list Location) : sort_asc l ≡ₚ l.
Proof. apply merge_sort_Permutation. Qed.

Lemma get_api_admin_user_ok (u : string) (q : option string) (w : world) :
  readyState w = 1 →
  get_api_admin_user true u q w
  = (inr (mkResponse 200
            (JLocations (limit (or_default (parseInt q) 500)
                           (sort_asc (find u (collection w)))))), w, []).
Proof.
  intros Hr. unfold get_api_admin_user, try_catch, bind, connected, get, ret. simpl.
  rewrite Hr. reflexivity.
Qed.



(** When no two reports of a list carry the same timestamp, sorting it
    oldest first is sorting it newest first and reversing. *)
Lemma sort_asc_reverse (l : list Location) :
  (∀ x y, x ∈ l → y ∈ l → timestamp x = timestamp y → x = y) →
  sort_asc l = reverse (sort_desc l).
Proof.
  intros Hinj. apply (StronglySorted_unique_strong older_first).
  - intros x y Hx Hy Hxy Hyx. apply Hinj.
    + by rewrite sort_asc_perm in Hx.
    + by rewrite reverse_Permutation, sort_desc_perm in Hy.
    + unfold older_first in *. lia.
  - apply sort_asc_sorted.
  - apply Sorted_StronglySorted; [apply _|].
    apply (Sorted_reverse newer_first), StronglySorted_Sorted, sort_desc_sorted.
  - by rewrite sort_asc_perm, reverse_Permutation, sort_desc_perm.
Qed.

(** X7. For a subject with at most 50 reports, no two of them with the same
    timestamp, the admin timeline is the history read backwards (both with
    their default limits, on a connected store). *)
Theorem timeline_is_history_reversed (u : string) (w : world) :
  readyState w = 1 →
  (length (find u (collection w)) ≤ 50)%nat →
  (∀ x y, x ∈ collection w → y ∈ collection w → userId x = u → userId y = u →
     timestamp x = timestamp y → x = y) →
  ∃ l, get_api_locations true u None w = (inr (mkResponse 200 (JLocations l)), w, [])
     ∧ get_api_admin_user true u None w
       = (inr (mkResponse 200 (JLocations (reverse l))), w, [])
     ∧ l ≡ₚ find u (collection w).
Proof.
  intros Hr Hlen Hinj. exists (sort_desc (find u (collection w))).
  rewrite get_api_locations_ok, get_api_admin_user_ok by done.
  assert (∀ l : list Location, (length l ≤ 50)%nat →
            limit (or_default (parseInt None) 50) l = l
            ∧ limit (or_default (parseInt None) 500) l = l) as Hlim.
  { intros l Hl. unfold limit. simpl. split; apply take_ge; lia. }
  destruct (Hlim (sort_desc (find u (collection w)))) as [-> _].
  { by rewrite (Permutation_length (sort_desc_perm _)). }
  destruct (Hlim (sort_asc (find u (collection w)))) as [_ ->].
  { by rewrite (Permutation_length (sort_asc_perm _)). }
  rewrite sort_asc_reverse.
  - split; [done|]. split; [done|]. apply sort_desc_perm.
  - intros x y [Hx ?]%list_elem_of_filter [Hy ?]%list_elem_of_filter. by apply Hinj.
Qed.

Lemma timeline_is_history_reversed_witness :
  ∃ l, get_api_locations true "ana" None three_reports
       = (inr (mkResponse 200 (JLocations l)), three_reports, [])
     ∧ get_api_admin_user true "ana" None three_reports
       = (inr (mkResponse 200 (JLocations (reverse l))), three_reports, [])
     ∧ l ≡ₚ find "ana" (collection three_reports).
Proof.
  apply (timeline_is_history_reversed "ana" three_reports).
  - reflexivity.
  - vm_compute. lia.
  - intros x y Hx Hy _ _. unfold three_reports in Hx, Hy. simpl in Hx, Hy.
    repeat (apply elem_of_cons in Hx as [->|Hx]);
      try (by apply elem_of_nil in Hx);
      repeat (apply elem_of_cons in Hy as [->|Hy]);
      try (by apply elem_of_nil in Hy); simpl; intros; try done; lia.
Defined.

(** ** The aggregation, again *)

Lemma group_add_count (d : Location) (gs : list group) :
  sum_list_with locationCount (group_add d gs)
  = S (sum_list_with locationCount gs).
Proof.
  induction gs as [|g gs IH]; [done|].
  cbn [group_add]. destruct (decide (g_id g = userId d)); simpl; [done|].
  rewrite IH. lia.
Qed.

(** X8. The report counts of the aggregation add up to the number of stored
    reports: every report is counted for exactly one subject. *)
Theorem aggregate_counts_add_up (c : list Location) :
  sum_list_with uv_locationCount (aggregate c) = length c.
Proof.
  rewrite aggregate_perm.
  assert (∀ gs, sum_list_with uv_locationCount (project <$> gs)
                = sum_list_with locationCount gs) as ->.
  { induction gs as [|g gs IH]; [done|]. csimpl. by rewrite IH. }
  rewrite <- (Permutation_length (sort_desc_perm c)).
  induction (sort_desc c) as [|d docs IH] using rev_ind; [done|].
  rewrite group_by_userId_snoc, group_add_count, IH, length_app. simpl. lia.
Qed.

(** X9. The two read queries agree: for every entry of the aggregation, the
    history of its subject is not empty and starts with a report of that
    subject stamped [lastSeen]; with a positive limit the history query
    answers with that report first. *)
Theorem history_starts_at_last_seen (c : list Location) (e : user_view) :
  e ∈ aggregate c →
  ∃ d rest,
    sort_desc (find (uv_userId e) c) = d :: rest
    ∧ userId d = uv_userId e
    ∧ timestamp d = uv_lastSeen e
    ∧ ∀ w q, collection w = c → readyState w = 1 →
        0 < or_default (parseInt q) 50 →
        ∃ rest', get_api_locations true (uv_userId e) q w
                 = (inr (mkResponse 200 (JLocations (d :: rest'))), w, []).
Proof.
  intros He. destruct (aggregate_spec c) as (_ & _ & Hent & _).
  destruct (Hent e He) as ((d0 & Hd0 & Hu0 & Ht0 & _) & _ & Hb & _).
  assert (d0 ∈ sort_desc (find (uv_userId e) c)) as Hin.
  { rewrite sort_desc_perm. by apply list_elem_of_filter. }
  destruct (sort_desc (find (uv_userId e) c)) as [|d rest] eqn:E.
  { by apply elem_of_nil in Hin. }
  assert (d ∈ find (uv_userId e) c) as [Hud Hdc]%list_elem_of_filter.
  { rewrite <- sort_desc_perm, E. apply list_elem_of_here. }
  exists d, rest. split; [done|]. split; [done|]. split.
  - pose proof (sort_desc_sorted (find (uv_userId e) c)) as Hs. rewrite E in Hs.
    apply StronglySorted_inv in Hs as [_ Hall]. rewrite Forall_forall in Hall.
    pose proof (Hb d Hdc Hud) as [_ Hle].
    apply elem_of_cons in Hin as [->|Hin]; [done|].
    apply Hall in Hin. unfold newer_first in Hin. lia.
  - intros w q <- Hr Hpos. rewrite get_api_locations_ok by done. rewrite E.
    unfold limit. destruct (Z.eqb_spec (or_default (parseInt q) 50) 0); [lia|].
    destruct (Z.abs_nat (or_default (parseInt q) 50)) as [|k] eqn:En; [lia|].
    simpl. eauto.
Qed.

Lemma history_starts_at_last_seen_witness :
  ∃ d rest,
    sort_desc (find "ana" two_subjects) = d :: rest
    ∧ userId d = "ana"%string
    ∧ timestamp d = 3000.
Proof.
  destruct (history_starts_at_last_seen two_subjects
              (mkUserView "ana" 20 (-98) 0 3000 1000 3))
    as (d & rest & H1 & H2 & H3 & _).
  - vm_compute. apply list_elem_of_here.
  - exists d, rest. split; [exact H1|]. split; [exact H2 | exact H3].
Defined.

(** ** The revisions of [POST /api/location] *)


(** ** The push channel and the store *)

Lemma emissions_inserts (o : option Location) :
  emissions (from_option (λ doc, [Insert doc]) [] o) = [].
Proof. by destruct o. Qed.

(** X11. What the push channel distributes does not depend on the store:
    whatever the connection state of the store, its contents and the outcome
    of the write, a [send-location] message causes the same emissions. *)
Theorem push_distribution_ignores_the_store
    (ok1 ok2 : bool) (loc : option position_input) (w1 w2 : world) :
  sockets w1 = sockets w2 → now w1 = now w2 →
  emissions (effects_of (on_send_location ok1 loc w1))
  = emissions (effects_of (on_send_location ok2 loc w2))
  ∧ sockets (world_of (on_send_location ok1 loc w1)) = sockets w1.
Proof.
  intros Hs Hn. split; [|apply on_send_location_sockets].
  destruct (from_option (λ l, truthy (in_userId l)) false loc) eqn:Hu.
  - destruct loc as [l|]; [simpl in Hu|done].
    rewrite !on_send_location_subject by done.
    unfold effects_of, admins. cbn [snd emissions List.filter].
    fold (emissions (from_option (λ doc, [Insert doc]) []
                       (send_location_document ok1 l w1))).
    fold (emissions (from_option (λ doc, [Insert doc]) []
                       (send_location_document ok2 l w2))).
    by rewrite !emissions_inserts, Hs, Hn.
  - by rewrite !on_send_location_no_subject.
Qed.

Lemma push_distribution_ignores_the_store_witness :
  emissions (effects_of (on_send_location true (Some complete) w_two))
  = emissions
      (effects_of
         (on_send_location false (Some complete)
            (mkWorld 0 [mkLocation "ana" 1 2 0 5] (now w_two) (sockets w_two)))).
Proof.
  destruct (push_distribution_ignores_the_store true false (Some complete) w_two
              (mkWorld 0 [mkLocation "ana" 1 2 0 5] (now w_two) (sockets w_two))
              eq_refl eq_refl) as [H _].
  exact H.
Defined.

(** ** Decimal limits *)







(** ** Accounts *)

Section accounts.
Import Auth.

(** *** Strings *)

Lemma is_white_lower c : is_white (lower_char c) = is_white c.
Proof. by destruct c as [[] [] [] [] [] [] [] []]. Qed.

Lemma lower_char_idem c : lower_char (lower_char c) = lower_char c.
Proof. by destruct c as [[] [] [] [] [] [] [] []]. Qed.

Lemma not_space_nor_at_lower c :
  not_space_nor_at (lower_char c) = not_space_nor_at c.
Proof. by destruct c as [[] [] [] [] [] [] [] []]. Qed.

Lemma lower_char_at c : Ascii.eqb (lower_char c) "@" = Ascii.eqb c "@".
Proof. by destruct c as [[] [] [] [] [] [] [] []]. Qed.

Lemma toLowerCase_idem s : toLowerCase (toLowerCase s) = toLowerCase s.
Proof. induction s as [|c r IH]; simpl; [done|]. by rewrite lower_char_idem, IH. Qed.

Lemma toLowerCase_app a b :
  toLowerCase (a +:+ b) = toLowerCase a +:+ toLowerCase b.
Proof. induction a as [|c r IH]; simpl; [done|]. by rewrite IH. Qed.

Lemma trimStart_lower s : trimStart (toLowerCase s) = toLowerCase (trimStart s).
Proof.
  induction s as [|c r IH]; simpl; [done|].
  rewrite is_white_lower. by destruct (is_white c).
Qed.

Lemma trimEnd_lower s : trimEnd (toLowerCase s) = toLowerCase (trimEnd s).
Proof.
  induction s as [|c r IH]; simpl; [done|].
  rewrite IH, is_white_lower.
  destruct (trimEnd r); simpl; [|done]. by destruct (is_white c).
Qed.

Lemma trim_lower s : trim (toLowerCase s) = toLowerCase (trim s).
Proof. unfold trim. by rewrite trimStart_lower, trimEnd_lower. Qed.

Lemma trimEnd_idem s : trimEnd (trimEnd s) = trimEnd s.
Proof.
  induction s as [|c r IH]; simpl; [done|].
  destruct (trimEnd r) as [|a t] eqn:E.
  - destruct (is_white c) eqn:W; simpl; [done|]. by rewrite W.
  - cbn [trimEnd] in *. by rewrite IH.
Qed.

Lemma trimStart_head s :
  match trimStart s with String c _ => is_white c = false | EmptyString => True end.
Proof.
  induction s as [|c r IH]; simpl; [done|].
  by destruct (is_white c) eqn:W.
Qed.

Lemma trimEnd_head c r :
  is_white c = false → ∃ r', trimEnd (String c r) = String c r'.
Proof. intros W. simpl. destruct (trimEnd r); rewrite ?W; eauto. Qed.

Lemma trim_head s :
  match trim s with String c _ => is_white c = false | EmptyString => True end.
Proof.
  unfold trim. pose proof (trimStart_head s) as H.
  destruct (trimStart s) as [|c r]; [done|].
  destruct (trimEnd_head c r H) as [r' ->]. done.
Qed.

Lemma trimStart_fixed s :
  match s with String c _ => is_white c = false | EmptyString => True end →
  trimStart s = s.
Proof. destruct s as [|c r]; simpl; [done|]. by intros ->. Qed.

Lemma trim_idem s : trim (trim s) = trim s.
Proof.
  unfold trim at 1. rewrite (trimStart_fixed (trim s)) by apply trim_head.
  unfold trim. apply trimEnd_idem.
Qed.

Lemma trim_nonempty s : trim s ≠ EmptyString → s ≠ EmptyString.
Proof. by intros H ->. Qed.

(** *** The matcher decides the language *)
Lemma append_empty a b : a +:+ b = EmptyString → a = EmptyString ∧ b = EmptyString.
Proof. destruct a; simpl; [done|discriminate]. Qed.

Lemma lang_nullable r s : lang r s → s = EmptyString → nullable r = true.
Proof.
  induction 1 as [|p c Hp|r1 r2 s1 s2 _ IH1 _ IH2|r1 r2 s _ IH|r1 r2 s _ IH| |];
    intros E; simpl; try done.
  - apply append_empty in E as [-> ->]. by rewrite IH1, IH2.
  - by rewrite IH.
  - rewrite IH by done. apply orb_true_r.
Qed.

Lemma nullable_lang r : nullable r = true → lang r EmptyString.
Proof.
  induction r as [| |p|r1 IH1 r2 IH2|r1 IH1 r2 IH2|r IH]; simpl; try done.
  - constructor.
  - intros [H1 H2]%andb_true_iff.
    change EmptyString with (EmptyString +:+ EmptyString). constructor; auto.
  - intros [H|H]%orb_true_iff; [apply lang_alt_l|apply lang_alt_r]; auto.
  - constructor.
Qed.

Lemma deriv_sound c r : ∀ s, lang (deriv c r) s → lang r (String c s).
Proof.
  induction r as [| |p|r1 IH1 r2 IH2|r1 IH1 r2 IH2|r IH]; simpl; intros s H.
  - inversion H.
  - inversion H.
  - destruct (p c) eqn:Hp; inversion H; subst. by constructor.
  - destruct (nullable r1) eqn:N.
    + inversion H as [| |? ? s1 s2 H1 H2| ? ? ? H1 | ? ? ? H2 | |]; subst.
      * inversion H1 as [| |? ? s1 s2 Ha Hb| | | |]; subst.
        change (String c (s1 +:+ s2)) with (String c s1 +:+ s2).
        constructor; auto.
      * change (String c s) with (EmptyString +:+ String c s).
        constructor; auto using nullable_lang.
    + inversion H as [| |? ? s1 s2 Ha Hb| | | |]; subst.
      change (String c (s1 +:+ s2)) with (String c s1 +:+ s2).
      constructor; auto.
  - inversion H; subst; [apply lang_alt_l|apply lang_alt_r]; auto.
  - inversion H as [| |? ? s1 s2 Ha Hb| | | |]; subst.
    change (String c (s1 +:+ s2)) with (String c s1 +:+ s2).
    constructor; auto.
Qed.

Lemma deriv_complete r s' :
  lang r s' → ∀ c s, s' = String c s → lang (deriv c r) s.
Proof.
  induction 1 as [|p c0 Hp|r1 r2 s1 s2 H1 IH1 H2 IH2|r1 r2 s0 _ IH|r1 r2 s0 _ IH
                 | |r s1 s2 H1 IH1 H2 IH2]; intros c s E; simpl; try done.
  - injection E as -> <-. rewrite Hp. constructor.
  - destruct s1 as [|a s1]; simpl in E.
    + rewrite (lang_nullable _ _ H1 eq_refl). apply lang_alt_r. eauto.
    + injection E as -> <-.
      destruct (nullable r1); [apply lang_alt_l|]; constructor; eauto.
  - apply lang_alt_l. eauto.
  - apply lang_alt_r. eauto.
  - destruct s1 as [|a s1]; simpl in E.
    + apply (IH2 c s E).
    + injection E as -> <-. constructor; eauto.
Qed.

Lemma test_lang s : ∀ r, test r s = true ↔ lang r s.
Proof.
  induction s as [|c s IH]; intros r; simpl.
  - split; [apply nullable_lang|]. intros H. by apply (lang_nullable _ _ H).
  - rewrite IH. split; [apply deriv_sound|]. intros H.
    by apply (deriv_complete _ _ H).
Qed.

Lemma word_cons c s :
  word (String c s) = not_space_nor_at c && (is_empty s || word s).
Proof. destruct s; simpl; [by rewrite andb_true_r|done]. Qed.

Lemma lang_star_word s :
  lang (Star (Chars not_space_nor_at)) s ↔ s = EmptyString ∨ word s = true.
Proof.
  split.
  - remember (Star (Chars not_space_nor_at)) as r eqn:Er.
    induction 1 as [| | | | | |r0 s1 s2 H1 _ H2 IH2]; try discriminate; [by left|].
    injection Er as ->. right.
    inversion H1 as [|p c Hp| | | | |]; subst.
    change (String c EmptyString +:+ s2) with (String c s2).
    rewrite word_cons, Hp. simpl.
    destruct (IH2 eq_refl) as [->| ->]; [done|apply orb_true_r].
  - induction s as [|c s IH]; intros [E|W]; try discriminate; [constructor|].
    rewrite word_cons in W. apply andb_true_iff in W as [Hc W].
    change (String c s) with (String c EmptyString +:+ s).
    constructor; [by constructor|]. apply IH.
    destruct s; [by left|by right].
Qed.

Lemma lang_plus_word s :
  lang (Plus (Chars not_space_nor_at)) s ↔ word s = true.
Proof.
  unfold Plus. split.
  - inversion 1 as [| |? ? s1 s2 H1 H2| | | |]; subst.
    inversion H1 as [|p c Hp| | | | |]; subst.
    change (String c EmptyString +:+ s2) with (String c s2).
    apply lang_star_word in H2. rewrite word_cons, Hp. simpl.
    destruct H2 as [->| ->]; [done|apply orb_true_r].
  - destruct s as [|c s]; [discriminate|]. rewrite word_cons.
    intros [Hc W]%andb_true_iff.
    change (String c s) with (String c EmptyString +:+ s).
    constructor; [by constructor|]. apply lang_star_word.
    destruct s; [by left|by right].
Qed.

Lemma emailRegex_shape s :
  test emailRegex s = true ↔
  ∃ a b c, s = a +:+ "@" +:+ b +:+ "." +:+ c
           ∧ word a = true ∧ word b = true ∧ word c = true.
Proof.
  rewrite test_lang. unfold emailRegex. split.
  - inversion 1 as [| |? ? a s1 Ha H1| | | |]; subst.
    inversion H1 as [| |? ? x s2 Hx H2| | | |]; subst.
    inversion H2 as [| |? ? b s3 Hb H3| | | |]; subst.
    inversion H3 as [| |? ? y c Hy Hc| | | |]; subst.
    inversion Hx as [|? cx Hcx| | | | |]; subst.
    inversion Hy as [|? cy Hcy| | | | |]; subst.
    apply Ascii.eqb_eq in Hcx as <-, Hcy as <-.
    exists a, b, c. by rewrite <- !lang_plus_word.
  - intros (a & b & c & -> & Ha & Hb & Hc).
    apply lang_plus_word in Ha, Hb, Hc.
    constructor; [done|].
    change ("@" +:+ b +:+ "." +:+ c) with (String "@" EmptyString +:+ b +:+ "." +:+ c).
    constructor; [by constructor|]. constructor; [done|].
    change ("." +:+ c) with (String "." EmptyString +:+ c).
    constructor; [by constructor|done].
Qed.

Lemma word_lower s : word (toLowerCase s) = word s.
Proof.
  induction s as [|c s IH]; [done|].
  cbn [toLowerCase]. rewrite !word_cons, IH, not_space_nor_at_lower.
  by destruct s.
Qed.

Lemma emailRegex_lower s :
  test emailRegex s = true → test emailRegex (toLowerCase s) = true.
Proof.
  rewrite !emailRegex_shape. intros (a & b & c & -> & Ha & Hb & Hc).
  exists (toLowerCase a), (toLowerCase b), (toLowerCase c).
  rewrite !word_lower, !toLowerCase_app. done.
Qed.

Lemma includes_app x a b : includes x (a +:+ b) = includes x a || includes x b.
Proof. induction a as [|c a IH]; simpl; [done|]. by destruct (Ascii.eqb c x). Qed.

Lemma emailRegex_includes_at s :
  test emailRegex s = true → includes "@" s = true.
Proof.
  rewrite emailRegex_shape. intros (a & b & c & -> & _).
  rewrite !includes_app. simpl. apply orb_true_r.
Qed.

Lemma includes_at_lower s : includes "@" (toLowerCase s) = includes "@" s.
Proof. induction s as [|c s IH]; simpl; [done|]. by rewrite lower_char_at, IH. Qed.

Lemma includes_trimStart x s : includes x (trimStart s) = true → includes x s = true.
Proof.
  induction s as [|c s IH]; simpl; [done|].
  destruct (is_white c); simpl; [|done]. intros H. rewrite IH by done.
  by destruct (Ascii.eqb c x).
Qed.

Lemma includes_trimEnd x s : includes x (trimEnd s) = true → includes x s = true.
Proof.
  induction s as [|c s IH]; simpl; [done|].
  destruct (Ascii.eqb c x) eqn:E.
  - done.
  - destruct (trimEnd s) as [|a t]; simpl.
    + destruct (is_white c); simpl; [done|]. by rewrite E.
    + rewrite E. apply IH.
Qed.

Lemma includes_trim x s : includes x (trim s) = true → includes x s = true.
Proof. intros H. by apply includes_trimStart, includes_trimEnd. Qed.

(** *** Queries on the users *)
Lemma find_none_existsb {A} (f : A → bool) l :
  List.find f l = None → existsb f l = false.
Proof.
  induction l as [|x l IH]; simpl; [done|].
  destruct (f x); [done|]. apply IH.
Qed.

Lemma find_none_all {A} (f : A → bool) l x :
  List.find f l = None → x ∈ l → f x = false.
Proof. intros H Hx. apply (find_none _ _ H). by apply list_elem_of_In. Qed.

Lemma find_snoc_none {A} (f : A → bool) l y :
  List.find f l = None → List.find f (l ++ [y]) = if f y then Some y else None.
Proof.
  induction l as [|x l IH]; simpl; [done|].
  destruct (f x); [done|]. apply IH.
Qed.

Lemma find_unique {A B} (key : A → B) (f : A → bool) l x :
  NoDup (key <$> l) → x ∈ l → f x = true →
  (∀ y, f y = true → key y = key x) → List.find f l = Some x.
Proof.
  intros ND Hx Hf Hk. destruct (List.find f l) as [y|] eqn:F.
  - apply find_some in F as [Hy Hfy]. apply list_elem_of_In in Hy.
    f_equal. apply Hk in Hfy.
    apply list_elem_of_lookup in Hx as [i Hi], Hy as [j Hj].
    assert (i = j) as ->; [|congruence].
    apply (NoDup_lookup _ i j (key x) ND); rewrite list_lookup_fmap.
    + by rewrite Hi.
    + by rewrite Hj, <- Hfy.
  - by rewrite (find_none_all _ _ _ F Hx) in Hf.
Qed.

Lemma fresh_id_above users x : x ∈ users → (_id x < fresh_id users)%nat.
Proof.
  unfold fresh_id. induction 1 as [x l|x y l _ IH]; csimpl; lia.
Qed.

Lemma email_canonical e :
  toLowerCase (trim (toLowerCase (trim e))) = toLowerCase (trim e).
Proof. by rewrite trim_lower, trim_idem, toLowerCase_idem. Qed.

Lemma test_emailRegex_nonempty s :
  test emailRegex s = true → s ≠ EmptyString.
Proof. by intros H ->. Qed.

Lemma toLowerCase_nonempty s : s ≠ EmptyString → toLowerCase s ≠ EmptyString.
Proof. by destruct s. Qed.

Lemma is_empty_false s : s ≠ EmptyString → is_empty s = false.
Proof. by destruct s. Qed.

Lemma is_empty_true s : is_empty s = true → s = EmptyString.
Proof. by destruct s. Qed.

(** *** What a registration can do *)

Lemma register_try_cases db now body users :
  (register_try db now body users = inl DbError ∧ ∃ k, db k = false)
  ∨ (register_try db now body users = inl ValidationFailed
     ∧ ∀ e, rb_email body = Some e →
         List.find (λ x, String.eqb (email x) (toLowerCase (trim e))) users
         = None)
  ∨ (∃ msg, register_try db now body users = inr (bad_request msg, users))
  ∨ (∃ u e p,
       rb_username body = Some u ∧ rb_email body = Some e
       ∧ rb_password body = Some p
       ∧ test emailRegex (trim e) = true
       ∧ (3 ≤ String.length u)%nat ∧ (4 ≤ String.length p)%nat
       ∧ trim u ≠ EmptyString
       ∧ (or_string (rb_role body) "user" = "user"%string
          ∨ or_string (rb_role body) "user" = "admin"%string)
       ∧ List.find (λ x, String.eqb (username x) (trim u)) users = None
       ∧ List.find (λ x, String.eqb (email x) (toLowerCase (trim e))) users
         = None
       ∧ let user := registered users now u e p (rb_role body) in
         register_try db now body users
         = inr (mkAuthResponse 200
                  (Registered (_id user) (username user) (email user)
                     (role user)),
                users ++ [user])).
Proof.
  unfold register_try.
  destruct (missing (rb_username body) || missing (rb_password body)) eqn:M1;
    [eauto 6|].
  destruct (missing (rb_email body)) eqn:M2; [eauto 6|].
  apply orb_false_iff in M1 as [Mu Mp].
  destruct body as [[u|] [e|] [p|] r]; simpl in Mu, Mp, M2; try discriminate.
  cbn [rb_username rb_email rb_password rb_role default option_rect id].
  destruct (test emailRegex (trim e)) eqn:T; cbn [negb]; [|eauto 6].
  destruct (String.length u <? 3)%nat eqn:Lu; [eauto 6|].
  destruct (String.length p <? 4)%nat eqn:Lp; [eauto 6|].
  apply Nat.ltb_ge in Lu, Lp.
  unfold findOne. destruct (db 0%nat) eqn:D0; [|eauto].
  destruct (List.find _ users) eqn:F1; [eauto 6|].
  destruct (db 1%nat) eqn:D1; [|eauto].
  destruct (List.find _ users) eqn:F2 in |- *; [eauto 6|].
  unfold save, new_User. cbn [username email password role _id].
  rewrite email_canonical.
  rewrite (is_empty_false (toLowerCase (trim e)))
    by by apply toLowerCase_nonempty, test_emailRegex_nonempty.
  rewrite (is_empty_false p) by (intros ->; simpl in Lp; lia).
  assert (∀ e0, Some e = Some e0 →
            List.find (λ x, String.eqb (email x) (toLowerCase (trim e0))) users
            = None) as F2' by (by intros ? [= <-]).
  destruct (is_empty (trim u)) eqn:Eu; [eauto|].
  cbn [orb].
  destruct (String.eqb (or_string r "user") "user"
            || String.eqb (or_string r "user") "admin") eqn:R; cbn [negb];
    [|eauto].
  destruct (db 2%nat) eqn:D2; cbn [negb]; [|eauto].
  rewrite (find_none_existsb _ _ F2), (find_none_existsb _ _ F1).
  do 3 right. exists u, e, p. split_and!; try done.
  - intros E. by rewrite E in Eu.
  - apply orb_true_iff in R as [R|R]; apply String.eqb_eq in R; auto.
Qed.

Lemma register_cases db now body users :
  (∃ msg, register db now body users = (bad_request msg, users))
  ∨ (register db now body users
       = (mkAuthResponse 500 (Failure INTERNAL_ERROR), users)
     ∧ ((∃ k, db k = false)
        ∨ ∀ e, rb_email body = Some e →
            List.find (λ x, String.eqb (email x) (toLowerCase (trim e))) users
            = None))
  ∨ (∃ u e p,
       rb_username body = Some u ∧ rb_email body = Some e
       ∧ rb_password body = Some p
       ∧ test emailRegex (trim e) = true
       ∧ (3 ≤ String.length u)%nat ∧ (4 ≤ String.length p)%nat
       ∧ trim u ≠ EmptyString
       ∧ (or_string (rb_role body) "user" = "user"%string
          ∨ or_string (rb_role body) "user" = "admin"%string)
       ∧ List.find (λ x, String.eqb (username x) (trim u)) users = None
       ∧ List.find (λ x, String.eqb (email x) (toLowerCase (trim e))) users
         = None
       ∧ let user := registered users now u e p (rb_role body) in
         register db now body users
         = (mkAuthResponse 200
              (Registered (_id user) (username user) (email user) (role user)),
            users ++ [user])).
Proof.
  unfold register.
  destruct (register_try_cases db now body users)
    as [[-> H]|[[-> H]|[[msg ->]|(u & e & p & H)]]]; eauto.
  do 2 right. exists u, e, p.
  destruct H as (?&?&?&?&?&?&?&?&?&?& ->). by split_and!.
Qed.


Lemma registered_well_formed users now u e p r :
  test emailRegex (trim e) = true → (4 ≤ String.length p)%nat →
  trim u ≠ EmptyString →
  (or_string r "user" = "user"%string ∨ or_string r "user" = "admin"%string) →
  well_formed (registered users now u e p r).
Proof.
  intros T Lp Hu Hr. unfold well_formed, registered; simpl.
  split_and!; try done.
  - apply trim_idem.
  - apply email_canonical.
  - by apply emailRegex_lower.
Qed.

Lemma eqb_false_neq a b : String.eqb a b = false → a ≠ b.
Proof. intros H ->. by rewrite String.eqb_refl in H. Qed.


Lemma register_consistent db now body users :
  consistent users →
  consistent (register db now body users).2
  ∧ users `prefix_of` (register db now body users).2.
Proof.
  intros (N1 & N2 & N3 & WF).
  destruct (register_cases db now body users)
    as [[msg ->]|[[-> _]|(u & e & p & Hu & He & Hp & T & Lu & Lp & Nu & Hr
                           & F1 & F2 & ->)]]; simpl; [done..|].
  split; [|by apply prefix_app_r].
  unfold consistent. rewrite !fmap_app. simpl.
  split_and!.
  - apply NoDup_app. split_and!; [done| |apply NoDup_singleton].
    intros n (x & -> & Hx)%list_elem_of_fmap E%list_elem_of_singleton.
    by apply (eqb_false_neq _ _ (find_none_all _ _ _ F1 Hx)).
  - apply NoDup_app. split_and!; [done| |apply NoDup_singleton].
    intros n (x & -> & Hx)%list_elem_of_fmap E%list_elem_of_singleton.
    by apply (eqb_false_neq _ _ (find_none_all _ _ _ F2 Hx)).
  - apply NoDup_app. split_and!; [done| |apply NoDup_singleton].
    intros n (x & -> & Hx)%list_elem_of_fmap E%list_elem_of_singleton.
    pose proof (fresh_id_above users x Hx). lia.
  - apply Forall_app. split; [done|]. apply Forall_singleton.
    by apply registered_well_formed.
Qed.






(** X16. After a successful registration, a login under the same username
    (up to surrounding white space) succeeds exactly when the password sent,
    trimmed, is the registered password; so a password registered with
    white space around it can never log in. *)
Theorem registered_user_logs_in db now body users u p u' p' :
  auth_status (register db now body users).1 = 200%nat →
  rb_username body = Some u → rb_password body = Some p →
  trim u' = trim u →
  let answer :=
    login true (mkLoginBody (Some u') (Some p'))
      (register db now body users).2 in
  (auth_status answer = 200%nat ↔ trim p' = p)
  ∧ (trim p ≠ p → auth_status answer ≠ 200%nat).
Proof.
  intros Hok Hu Hp Eu answer.
  assert (auth_status answer = 200%nat ↔ trim p' = p) as Hiff.
  { subst answer. revert Hok.
    destruct (register_cases db now body users)
      as [[msg ->]|[[-> _]|(u0 & e0 & p0 & Hu0 & He0 & Hp0 & T & Lu & Lp & Nu
                             & Hr & F1 & F2 & ->)]];
      [discriminate..|].
    intros _. rewrite Hu in Hu0. rewrite Hp in Hp0.
    injection Hu0 as <-. injection Hp0 as <-.
    cbn [snd]. unfold login.
    cbn [lb_username lb_password from_option id].
    assert (missing (Some u') = false) as ->.
    { destruct u'; [by rewrite <- Eu in Nu|done]. }
    destruct p' as [|c p'].
    - simpl. split; [discriminate|]. intros <-. simpl in Lp. lia.
    - cbn [missing orb]. unfold findOne. rewrite Eu.
      rewrite (find_snoc_none _ _ _ F1). unfold registered.
      cbn [username password _id role]. rewrite String.eqb_refl.
      cbn [username password _id role].
      destruct (String.eqb p (trim (String c p'))) eqn:E; cbn [negb auth_status].
      + apply String.eqb_eq in E. by split.
      + apply String.eqb_neq in E. split; [discriminate|]. by intros <-. }
  split; [done|].
  intros Hne H. apply Hiff in H. apply Hne. rewrite <- H. apply trim_idem.
Qed.

Lemma registered_user_logs_in_witness :
  auth_status (register (λ _, true) 5 sample_body []).1 = 200%nat
  ∧ let answer :=
      login true (mkLoginBody (Some "Ana") (Some " s3cret "))
        (register (λ _, true) 5 sample_body []).2 in
    (auth_status answer = 200%nat ↔ trim " s3cret " = "s3cret"%string)
    ∧ (trim "s3cret" ≠ "s3cret"%string → auth_status answer ≠ 200%nat).
Proof.
  split; [reflexivity|].
  apply (registered_user_logs_in (λ _, true) 5 sample_body [] " Ana " "s3cret"
           "Ana" " s3cret "); reflexivity.
Defined.

(** X17. With usernames unique, a login with both fields succeeds with the
    identifier, username and role of the stored user whose username is the
    trimmed username sent and whose password is the trimmed password sent;
    when there is no such user the answer is 401 with one and the same
    message, whether the username is unknown or the password wrong. *)
Theorem login_checks_stored_credentials users u p :
  NoDup (username <$> users) →
  u ≠ EmptyString → p ≠ EmptyString →
  let answer := login true (mkLoginBody (Some u) (Some p)) users in
  (∀ user, user ∈ users → username user = trim u → password user = trim p →
     answer
     = mkAuthResponse 200 (LoggedIn (_id user) (username user) (role user)))
  ∧ ((∀ user, user ∈ users →
        ¬ (username user = trim u ∧ password user = trim p)) →
     answer = mkAuthResponse 401 (Failure BAD_CREDENTIALS)).
Proof.
  intros ND Hu Hp answer. subst answer. unfold login.
  cbn [lb_username lb_password from_option id].
  assert (missing (Some u) = false) as -> by by destruct u.
  assert (missing (Some p) = false) as -> by by destruct p.
  cbn [orb]. unfold findOne. split.
  - intros user Hin Hname Hpass.
    rewrite (find_unique username _ users user ND Hin).
    + by rewrite Hpass, String.eqb_refl.
    + by apply String.eqb_eq.
    + intros y Hy%String.eqb_eq. congruence.
  - intros Hnone.
    destruct (List.find _ users) as [y|] eqn:F; [|done].
    apply find_some in F as [Hy Hname]. apply list_elem_of_In in Hy.
    apply String.eqb_eq in Hname.
    destruct (String.eqb (password y) (trim p)) eqn:E; [|done].
    apply String.eqb_eq in E. by destruct (Hnone y Hy).
Qed.

Lemma login_checks_stored_credentials_witness :
  NoDup (username <$> (register (λ _, true) 5 sample_body []).2)
  ∧ let answer :=
      login true (mkLoginBody (Some "Ana ") (Some "s3cret"))
        (register (λ _, true) 5 sample_body []).2 in
    (∀ user, user ∈ (register (λ _, true) 5 sample_body []).2 →
       username user = trim "Ana " → password user = trim "s3cret" →
       answer
       = mkAuthResponse 200 (LoggedIn (_id user) (username user) (role user)))
    ∧ ((∀ user, user ∈ (register (λ _, true) 5 sample_body []).2 →
          ¬ (username user = trim "Ana " ∧ password user = trim "s3cret")) →
       answer = mkAuthResponse 401 (Failure BAD_CREDENTIALS)).
Proof.
  assert (NoDup (username <$> (register (λ _, true) 5 sample_body []).2)) as H.
  { vm_compute. apply NoDup_singleton. }
  split; [exact H|].
  apply (login_checks_stored_credentials _ "Ana " "s3cret" H); discriminate.
Defined.



Lemma or_null_nonempty s : s ≠ EmptyString → or_null s = Some s.
Proof. by destruct s. Qed.

Lemma well_formed_fields x :
  well_formed x →
  or_null (username x) = Some (username x)
  ∧ or_null (email x) = Some (email x)
  ∧ or_null (role x) = Some (role x).
Proof.
  intros (Hu & _ & _ & T & _ & Hr). split_and!.
  - by apply or_null_nonempty.
  - by apply or_null_nonempty, test_emailRegex_nonempty.
  - by destruct Hr as [-> | ->].
Qed.

(** X19. Among consistent users, a stored user is found by the lookup under
    their email in any capitalisation and with white space around it, and
    under their username when the identifier has no [@]; an identifier with
    an [@] that is not the user's email never yields that user, also when it
    is their username. *)
Theorem lookup_finds_registered_user users x identifier :
  consistent users → x ∈ users →
  let found :=
    mkAuthResponse 200
      (Exists true (Some (username x)) (Some (email x)) (Some (role x))) in
  (toLowerCase (trim identifier) = email x →
   get_user true identifier users = found)
  ∧ (includes "@" identifier = false → trim identifier = username x →
     get_user true identifier users = found)
  ∧ (includes "@" identifier = true →
     toLowerCase (trim identifier) ≠ email x →
     get_user true identifier users ≠ found).
Proof.
  intros (N1 & N2 & N3 & WF) Hx found. subst found.
  assert (well_formed x) as Hwf by by eapply Forall_forall in WF.
  destruct (well_formed_fields x Hwf) as (Eu & Ee & Er).
  unfold get_user, findOne. split_and!.
  - intros E.
    assert (includes "@" identifier = true) as ->.
    { apply includes_trim. rewrite <- includes_at_lower, E.
      apply emailRegex_includes_at, Hwf. }
    rewrite (find_unique email _ users x N2 Hx).
    + by rewrite Eu, Ee, Er.
    + by apply String.eqb_eq.
    + intros y Hy%String.eqb_eq. congruence.
  - intros -> E.
    rewrite (find_unique username _ users x N1 Hx).
    + by rewrite Eu, Ee, Er.
    + by apply String.eqb_eq.
    + intros y Hy%String.eqb_eq. congruence.
  - intros -> Hne.
    destruct (List.find _ users) as [y|] eqn:F; [|discriminate].
    apply find_some in F as [Hy E]. apply list_elem_of_In in Hy.
    apply String.eqb_eq in E.
    assert (well_formed y) as Hwfy by by eapply Forall_forall in WF.
    destruct (well_formed_fields y Hwfy) as (_ & -> & _).
    intros [= _ H _]. congruence.
Qed.

Lemma lookup_finds_registered_user_witness :
  consistent (register (λ _, true) 5 sample_body []).2
  ∧ get_user true " ANA@EXAMPLE.org" (register (λ _, true) 5 sample_body []).2
    = mkAuthResponse 200
        (Exists true (Some "Ana"%string) (Some "ana@example.org"%string)
           (Some "user"%string))
  ∧ get_user true "Ana " (register (λ _, true) 5 sample_body []).2
    = mkAuthResponse 200
        (Exists true (Some "Ana"%string) (Some "ana@example.org"%string)
           (Some "user"%string)).
Proof.
  assert (consistent (register (λ _, true) 5 sample_body []).2) as H.
  { apply (register_consistent (λ _, true) 5 sample_body []).
    unfold consistent. rewrite !fmap_nil. split_and!; constructor. }
  assert (registered [] 5 " Ana " " Ana@Example.ORG " "s3cret" None
            ∈ (register (λ _, true) 5 sample_body []).2) as Hx
    by (vm_compute; apply list_elem_of_here).
  split; [exact H|]. split.
  - exact (proj1 (lookup_finds_registered_user _ _ " ANA@EXAMPLE.org" H Hx)
             eq_refl).
  - exact (proj1 (proj2 (lookup_finds_registered_user _ _ "Ana " H Hx))
             eq_refl eq_refl).
Defined.

(** X20. The email format accepts exactly the strings [a@b.c] where [a],
    [b] and [c] are non-empty and hold neither white space nor [@]. *)
Theorem email_format_is_three_words s :
  test emailRegex s = true ↔
  ∃ a b c, s = a +:+ "@" +:+ b +:+ "." +:+ c
           ∧ word a = true ∧ word b = true ∧ word c = true.
Proof. apply emailRegex_shape. Qed.

End accounts.
